(** * The telemetry simulator: MQTT publisher and metric generator

    A shallow embedding of the simulator's TypeScript source
    ([SimpleMqttPublisher], [encodeUtf8String], [encodeRemainingLength],
    [publishMetric], [defaultGenerator], [clamp], [randomInRange]) together
    with the properties its specification states about them.

    Conventions of the embedding:
    - a JavaScript number that holds an integer (a length, a byte, a flag)
      is a [Z]; the 32-bit bitwise operators are written out with their
      [ToInt32] wrap-around;
    - a metric value is a rational [Q]: the arithmetic of the generator is
      the exact one, rounding of IEEE doubles is not modelled;
    - [Math.random()] and [Date.now()] are inputs of the functions that
      call them;
    - a string is the list of its UTF-16 code units, a [Buffer] the list of
      its bytes;
    - the publisher object, its promises and its sockets live in a [World]
      that every method and every socket event transforms. *)

From Stdlib Require Import ZArith QArith Qminmax Qabs Qround Lia Lqa.
From Stdlib Require Import String Ascii.
From stdpp Require Import gmap list.
From Equations Require Import Equations.
From Equations.Prop Require Import Logic.

(** ** JavaScript values *)

Module JS.
Local Open Scope Z_scope.

(** [ToInt32] of ECMAScript, on an integer. *)
Definition ToInt32 (x : Z) : Z := (x + 2 ^ 31) mod 2 ^ 32 - 2 ^ 31.

(** [a | b], [a & b], [a >> n] and [a << n]. *)
Definition bitor (a b : Z) : Z := Z.lor (ToInt32 a) (ToInt32 b).
Definition bitand (a b : Z) : Z := Z.land (ToInt32 a) (ToInt32 b).
Definition shr (a n : Z) : Z := Z.shiftr (ToInt32 a) (n mod 32).
Definition shl (a n : Z) : Z := ToInt32 (Z.shiftl (ToInt32 a) (n mod 32)).

(** A string: its UTF-16 code units. *)
Definition jsstring : Type := list Z.

(** An ASCII literal as a [jsstring]. *)
Definition lit (s : string) : jsstring :=
  map (fun c => Z.of_N (N_of_ascii c)) (list_ascii_of_string s).

(** A [Buffer]: its bytes. *)
Definition Buffer : Type := list Z.

(** [Buffer.from(array)]: every entry is stored modulo 256. *)
Definition ToUint8 (x : Z) : Z := x mod 256.
Definition Buffer_from (xs : list Z) : Buffer := map ToUint8 xs.

(** [Buffer.concat(list)]. *)
Definition Buffer_concat (bs : list Buffer) : Buffer := List.concat bs.

(** [Buffer.from(value, "utf8")]: the UTF-8 encoding of a string. A
    surrogate pair is one four-byte scalar, a lone surrogate is replaced by
    U+FFFD. *)
Definition is_high_surrogate (u : Z) : bool := (0xD800 <=? u) && (u <=? 0xDBFF).
Definition is_low_surrogate (u : Z) : bool := (0xDC00 <=? u) && (u <=? 0xDFFF).
Definition replacement : list Z := [0xEF; 0xBF; 0xBD].

Definition utf8_scalar (c : Z) : list Z :=
  if c <? 0x80 then [c]
  else if c <? 0x800 then [0xC0 + c / 64; 0x80 + c mod 64]
  else if c <? 0x10000 then
    [0xE0 + c / 4096; 0x80 + (c / 64) mod 64; 0x80 + c mod 64]
  else
    [0xF0 + c / 262144; 0x80 + (c / 4096) mod 64;
     0x80 + (c / 64) mod 64; 0x80 + c mod 64].

Fixpoint utf8 (s : jsstring) : Buffer :=
  match s with
  | [] => []
  | u :: rest =>
      if is_high_surrogate u then
        match rest with
        | l :: rest' =>
            if is_low_surrogate l
            then utf8_scalar (0x10000 + (u - 0xD800) * 1024 + (l - 0xDC00))
                   ++ utf8 rest'
            else replacement ++ utf8 rest
        | [] => replacement
        end
      else if is_low_surrogate u then replacement ++ utf8 rest
      else utf8_scalar u ++ utf8 rest
  end.

(** An exception value: a socket error of the platform, [new Error(message)],
    or the [TypeError] of a property read on [undefined]. *)
Inductive JsError : Type :=
| ErrnoException (code : Z)
| Error (message : string)
| TypeError.

End JS.

(** ** The wire codec *)

Module Codec.
Import JS.
Local Open Scope Z_scope.

(** [encodeUtf8String]: the two length bytes, then the UTF-8 bytes. *)
Definition encodeUtf8String (value : jsstring) : Buffer :=
  let stringBuf := utf8 value in
  let len := Z.of_nat (length stringBuf) in
  let lengthBuf := Buffer_from [bitand (shr len 8) 0xff; bitand len 0xff] in
  Buffer_concat [lengthBuf; stringBuf].

(** [encodeRemainingLength]: the [do ... while (length > 0)] loop. Each
    round pushes one digit; the list is built in the order of the pushes. *)
Equations? encodeRemainingLength (len : Z) : list Z by wf (Z.to_nat len) lt :=
  encodeRemainingLength len with inspect (0 <? len / 128) := {
    | exist _ true Hmore =>
        bitor (Z.rem len 128) 0x80 :: encodeRemainingLength (len / 128);
    | exist _ false Hlast => [Z.rem len 128] }.
Proof.
  apply Z.ltb_lt in Hmore.
  assert (0 < len).
  { destruct (Z_lt_le_dec 0 len) as [|Hle]; [assumption|].
    assert (len / 128 <= 0) by (apply Z.div_le_upper_bound; lia). lia. }
  assert (len / 128 < len) by (apply Z.div_lt; lia).
  lia.
Qed.

(** Modelled from the spec: the decoder of the variable-length integer,
    which the source does not contain (section 4.1: decoding "reverses"
    the encoding). It reads digits until one has its top bit clear and
    returns the value with the bytes that follow. *)
Fixpoint decodeRemainingLength (bytes : list Z) : option (Z * list Z) :=
  match bytes with
  | [] => None
  | b :: rest =>
      if Z.testbit b 7 then
        match decodeRemainingLength rest with
        | Some (v, rest') => Some (Z.land b 127 + 128 * v, rest')
        | None => None
        end
      else Some (Z.land b 127, rest)
  end.

End Codec.

(** ** The publisher *)

Module Mqtt.
Import JS Codec.
Local Open Scope Z_scope.

Inductive QoS : Type := QoS0 | QoS1 | QoS2.

Definition QoS_value (q : QoS) : Z :=
  match q with QoS0 => 0 | QoS1 => 1 | QoS2 => 2 end.

(** The options object of [publish]: both fields may be absent. *)
Record PublishOptions : Type := {
  retain : option bool;
  qos : option QoS
}.

(** The parts of the broker URL that [connect] reads: [url.hostname], and
    [url.port] as a number when the URL names a port. *)
Record URL : Type := {
  hostname : jsstring;
  url_port : option Z
}.

Definition KEEP_ALIVE_SECONDS : Z := 60.

(** A promise is pending until the first [resolve] or [reject]. *)
Inductive PromiseState : Type :=
| Pending
| Fulfilled
| Rejected (reason : JsError).

(** A socket made by [net.createConnection]. [written] is the list of the
    buffers handed to [write], in order. [executor] is the promise whose
    [resolve] and [reject] the four handlers installed by [connect] close
    over; [once_connect] and [once_error] tell whether the two [once]
    handlers are still installed. *)
Record Socket : Type := {
  port : Z;
  host : jsstring;
  executor : nat;
  once_connect : bool;
  once_error : bool;
  written : list Buffer;
  ended : bool;
  closed : bool
}.

(** The fields of a [SimpleMqttPublisher]; [socket] and [connectPromise]
    are references into the stores of the [World]. *)
Record SimpleMqttPublisher : Type := {
  socket : option nat;
  url : URL;
  clientId : jsstring;
  isReady : bool;
  connectPromise : option nat
}.

Record World : Type := {
  this : SimpleMqttPublisher;
  promises : list PromiseState;
  sockets : list Socket
}.

(** The constructor. The fallback client identifier is "sim-" followed by
    the hexadecimal digits drawn from [Math.random()], here [suffix]. *)
Definition constructor (brokerUrl : URL) (clientId : option jsstring)
    (suffix : jsstring) : World :=
  {| this := {| socket := None;
                url := brokerUrl;
                clientId := match clientId with
                            | Some c => c
                            | None => lit "sim-" ++ suffix
                            end;
                isReady := false;
                connectPromise := None |};
     promises := [];
     sockets := [] |}.

(** Field updates. *)
Definition set_isReady (b : bool) (w : World) : World :=
  {| this := {| socket := socket (this w); url := url (this w);
                clientId := clientId (this w); isReady := b;
                connectPromise := connectPromise (this w) |};
     promises := promises w; sockets := sockets w |}.

Definition set_connectPromise (p : option nat) (w : World) : World :=
  {| this := {| socket := socket (this w); url := url (this w);
                clientId := clientId (this w); isReady := isReady (this w);
                connectPromise := p |};
     promises := promises w; sockets := sockets w |}.

Definition set_socket (s : option nat) (w : World) : World :=
  {| this := {| socket := s; url := url (this w);
                clientId := clientId (this w); isReady := isReady (this w);
                connectPromise := connectPromise (this w) |};
     promises := promises w; sockets := sockets w |}.

Definition set_promises (ps : list PromiseState) (w : World) : World :=
  {| this := this w; promises := ps; sockets := sockets w |}.

Definition set_sockets (ss : list Socket) (w : World) : World :=
  {| this := this w; promises := promises w; sockets := ss |}.

(** [resolve()] and [reject(e)] of promise [p]: the first call settles the
    promise, later calls do nothing. *)
Definition settle (p : nat) (st : PromiseState) (w : World) : World :=
  match promises w !! p with
  | Some Pending => set_promises (<[p := st]> (promises w)) w
  | _ => w
  end.

Definition resolve (p : nat) (w : World) : World := settle p Fulfilled w.
Definition reject (p : nat) (e : JsError) (w : World) : World :=
  settle p (Rejected e) w.

(** [socket.write(buf)] and [socket.end()] on socket [s]. *)
Definition socket_write (s : nat) (buf : Buffer) (w : World) : World :=
  match sockets w !! s with
  | Some sk =>
      set_sockets
        (<[s := {| port := port sk; host := host sk; executor := executor sk;
                   once_connect := once_connect sk;
                   once_error := once_error sk;
                   written := written sk ++ [buf];
                   ended := ended sk; closed := closed sk |}]> (sockets w)) w
  | None => w
  end.

Definition socket_end (s : nat) (w : World) : World :=
  match sockets w !! s with
  | Some sk =>
      set_sockets
        (<[s := {| port := port sk; host := host sk; executor := executor sk;
                   once_connect := once_connect sk;
                   once_error := once_error sk;
                   written := written sk;
                   ended := true; closed := closed sk |}]> (sockets w)) w
  | None => w
  end.

(** [buildConnectPacket]. *)
Definition buildConnectPacket (self : SimpleMqttPublisher) : Buffer :=
  let protocolName := encodeUtf8String (lit "MQTT") in
  let protocolLevel := Buffer_from [0x04] in
  let connectFlags := Buffer_from [0x02] in
  let keepAlive :=
    Buffer_from [bitand (shr KEEP_ALIVE_SECONDS 8) 0xff;
                 bitand KEEP_ALIVE_SECONDS 0xff] in
  let clientId := encodeUtf8String (clientId self) in
  let variableHeader :=
    Buffer_concat [protocolName; protocolLevel; connectFlags; keepAlive] in
  let payload := Buffer_concat [clientId] in
  let remainingLength :=
    encodeRemainingLength
      (Z.of_nat (length variableHeader) + Z.of_nat (length payload)) in
  Buffer_concat
    [Buffer_from (0x10 :: remainingLength); variableHeader; payload].

(** [connect()]. The value returned is the promise whose outcome the caller
    observes. With a promise at hand nothing else happens; otherwise a
    promise and a socket are made, the handlers installed on the socket
    close over that promise, and both are stored in the object. *)
Definition connect (w : World) : nat * World :=
  match connectPromise (this w) with
  | Some p => (p, w)
  | None =>
      let p := length (promises w) in
      let s := length (sockets w) in
      let sk := {| port := match url_port (url (this w)) with
                           | Some n => n
                           | None => 1883
                           end;
                   host := hostname (url (this w));
                   executor := p;
                   once_connect := true;
                   once_error := true;
                   written := [];
                   ended := false;
                   closed := false |} in
      (p, set_connectPromise (Some p)
            (set_socket (Some s)
               {| this := this w;
                  promises := promises w ++ [Pending];
                  sockets := sockets w ++ [sk] |}))
  end.

(** [chunk[i] === v] and [chunk[i] >= v]; an index past the end reads
    [undefined], for which both are false. *)
Definition byte_is (chunk : Buffer) (i : nat) (v : Z) : bool :=
  match chunk !! i with Some b => b =? v | None => false end.

Definition byte_ge (chunk : Buffer) (i : nat) (v : Z) : bool :=
  match chunk !! i with Some b => v <=? b | None => false end.

(** The events a socket emits. *)
Inductive SocketEvent : Type :=
| EvConnect
| EvError (code : Z)
| EvData (chunk : Buffer)
| EvClose.

Definition disarm_connect (sk : Socket) : Socket :=
  {| port := port sk; host := host sk; executor := executor sk;
     once_connect := false; once_error := once_error sk;
     written := written sk; ended := ended sk; closed := closed sk |}.

Definition disarm_error (sk : Socket) : Socket :=
  {| port := port sk; host := host sk; executor := executor sk;
     once_connect := once_connect sk; once_error := false;
     written := written sk; ended := ended sk; closed := closed sk |}.

Definition mark_closed (sk : Socket) : Socket :=
  {| port := port sk; host := host sk; executor := executor sk;
     once_connect := once_connect sk; once_error := once_error sk;
     written := written sk; ended := ended sk; closed := true |}.

(** The handlers that [connect] installs on socket [s]. The two [once]
    handlers run for the first event of their kind only. The second error
    handler only prints to the console, which is not part of the world. On
    [close] the platform has closed the socket when the handler runs. *)
Definition on_connect (s : nat) (sk : Socket) (w : World) : World :=
  if once_connect sk then
    let w := set_sockets (<[s := disarm_connect sk]> (sockets w)) w in
    let connectPacket := buildConnectPacket (this w) in
    match socket (this w) with
    | Some cur => socket_write cur connectPacket w
    | None => w
    end
  else w.

Definition on_error (s : nat) (sk : Socket) (code : Z) (w : World) : World :=
  if once_error sk then
    let w := set_sockets (<[s := disarm_error sk]> (sockets w)) w in
    reject (executor sk) (ErrnoException code) w
  else w.

Definition on_data (sk : Socket) (chunk : Buffer) (w : World) : World :=
  if negb (isReady (this w)) && (4 <=? Z.of_nat (length chunk)) then
    if byte_is chunk 0 0x20 && byte_ge chunk 1 0x02 && byte_is chunk 3 0x00
    then resolve (executor sk) (set_isReady true w)
    else reject (executor sk) (Error "MQTT broker rejected connection") w
  else w.

Definition on_close (s : nat) (sk : Socket) (w : World) : World :=
  let w := set_sockets (<[s := mark_closed sk]> (sockets w)) w in
  set_connectPromise None (set_isReady false w).

Definition emit (s : nat) (ev : SocketEvent) (w : World) : World :=
  match sockets w !! s with
  | None => w
  | Some sk =>
      match ev with
      | EvConnect => on_connect s sk w
      | EvError code => on_error s sk code w
      | EvData chunk => on_data sk chunk w
      | EvClose => on_close s sk w
      end
  end.

(** [publish(topic, payload, options)]: the exception thrown, if any, and
    the world after the call. *)
Definition publish (topic : jsstring) (payload : Buffer)
    (options : PublishOptions) (w : World) : option JsError * World :=
  match socket (this w), isReady (this w) with
  | Some s, true =>
      let retainFlag :=
        match retain options with Some true => 0x01 | _ => 0x00 end in
      let qosFlag :=
        match qos options with
        | Some q => if QoS_value q =? 0 then 0 else shl (QoS_value q) 1
        | None => 0
        end in
      let fixedHeader := bitor (bitor 0x30 retainFlag) qosFlag in
      let topicBuffer := encodeUtf8String topic in
      let remainingLength :=
        Z.of_nat (length topicBuffer) + Z.of_nat (length payload) in
      let packet :=
        Buffer_concat
          [Buffer_from (fixedHeader :: encodeRemainingLength remainingLength);
           topicBuffer; payload] in
      (None, socket_write s packet w)
  | _, _ => (Some (Error "MQTT publisher not connected"), w)
  end.

(** [end()]. *)
Definition end_ (w : World) : World :=
  match socket (this w) with
  | Some s => socket_end s w
  | None => w
  end.

(** What can happen to a publisher: a method call, or an event of one of
    its sockets. The platform emits events on a socket that exists and has
    not emitted [close] yet. *)
Inductive Action : Type :=
| CallConnect
| CallPublish (topic : jsstring) (payload : Buffer) (options : PublishOptions)
| CallEnd
| Emit (s : nat) (ev : SocketEvent).

Definition live (s : nat) (w : World) : bool :=
  match sockets w !! s with
  | Some sk => negb (closed sk)
  | None => false
  end.

Definition enabled (a : Action) (w : World) : bool :=
  match a with
  | Emit s _ => live s w
  | _ => true
  end.

Definition exec (a : Action) (w : World) : World :=
  match a with
  | CallConnect => snd (connect w)
  | CallPublish topic payload options => snd (publish topic payload options w)
  | CallEnd => end_ w
  | Emit s ev => emit s ev w
  end.

Fixpoint run (acts : list Action) (w : World) : option World :=
  match acts with
  | [] => Some w
  | a :: acts' => if enabled a w then run acts' (exec a w) else None
  end.

(** The worlds a freshly constructed publisher can get into. *)
Definition reachable (w : World) : Prop :=
  exists brokerUrl clientId suffix acts,
    run acts (constructor brokerUrl clientId suffix) = Some w.

(** The two states of the handshake in which [connect] has nothing to do:
    an attempt is in flight, or the handshake is done. *)
Definition Connecting (w : World) : Prop :=
  exists p, connectPromise (this w) = Some p /\ promises w !! p = Some Pending.

Definition Ready (w : World) : Prop := isReady (this w) = true.

(** The acknowledgement that completes the handshake. *)
Definition accepted (chunk : Buffer) : Prop :=
  chunk !! 0%nat = Some 0x20 /\
  (exists b1, chunk !! 1%nat = Some b1 /\ 2 <= b1) /\
  chunk !! 3%nat = Some 0.

(** The fixed header byte of a publish frame in the words of the wire
    format (section 4.2): 0x30, or-ed with the retain bit (bit 0) and with
    the quality of service in bits 1 and 2. *)
Definition fixed_header (options : PublishOptions) : Z :=
  Z.lor
    (Z.lor 0x30 (match retain options with Some true => 1 | _ => 0 end))
    (Z.shiftl (match qos options with Some q => QoS_value q | None => 0 end) 1).

(** A broker and a publisher for the examples: the handshake that
    succeeds, and the one the broker refuses with return code 5. *)
Definition broker : URL :=
  {| hostname := lit "broker"; url_port := Some 1883 |}.

Definition fresh : World := constructor broker (Some (lit "sim-1")) [].

Definition handshake (ack : Buffer) : list Action :=
  [CallConnect; Emit 0 EvConnect; Emit 0 (EvData ack)].

Definition connecting : World :=
  exec (Emit 0 EvConnect) (exec CallConnect fresh).

Definition connected : World :=
  exec (Emit 0 (EvData [0x20; 0x02; 0x00; 0x00])) connecting.

Definition refused : World :=
  exec (Emit 0 (EvData [0x20; 0x02; 0x00; 0x05])) connecting.

(** What the handshake logic looks at in a socket: whether it has closed,
    and the promise of its handlers. *)
Definition mark (sk : Socket) : bool * nat := (closed sk, executor sk).

Definition marks (w : World) : list (bool * nat) := mark <$> sockets w.

(** A socket that has not closed is the current one and its handlers
    settle the current promise; a ready publisher has such a socket. *)
Record consistent (w : World) : Prop := {
  live_is_current :
    forall (s e : nat), marks w !! s = Some (false, e) ->
      socket (this w) = Some s /\ connectPromise (this w) = Some e;
  ready_has_socket :
    isReady (this w) = true ->
    exists s e : nat, socket (this w) = Some s /\ marks w !! s = Some (false, e)
}.

(** The attempt made by [connect] is in flight: its promise [p] is at hand
    and pending, the publisher is not ready, and its socket [s] is the
    current one, has not closed, and settles [p]. *)
Definition in_flight (p s : nat) (w : World) : Prop :=
  connectPromise (this w) = Some p /\
  promises w !! p = Some Pending /\
  isReady (this w) = false /\
  socket (this w) = Some s /\
  marks w !! s = Some (false, p).

(** What may happen before the first acknowledgement is looked at: method
    calls, the connect event, and chunks of fewer than four bytes. *)
Definition quiet (a : Action) : bool :=
  match a with
  | Emit _ EvConnect => true
  | Emit _ (EvData chunk) => Z.of_nat (length chunk) <? 4
  | Emit _ _ => false
  | _ => true
  end.


(** The frame that [publish] hands to the socket, in one piece. *)
Definition frame (topic : jsstring) (payload : Buffer)
    (options : PublishOptions) : Buffer :=
  let field := encodeUtf8String topic in
  fixed_header options
    :: encodeRemainingLength
         (Z.of_nat (length field) + Z.of_nat (length payload))
    ++ field ++ payload.

(** The variable header of the connection request: the protocol name
    "MQTT", level 4, the clean-session flag, and the keep-alive of 60. *)
Definition connect_header : Buffer :=
  [0; 4; 77; 81; 84; 84; 0x04; 0x02; 0; 60].

(** The [once] error handler of socket [s] is still installed. *)
Definition armed (s : nat) (w : World) : Prop :=
  exists sk, sockets w !! s = Some sk /\ once_error sk = true.

(** A socket after one more [write], and after [end]. *)
Definition push (buf : Buffer) (sk : Socket) : Socket :=
  {| port := port sk; host := host sk; executor := executor sk;
     once_connect := once_connect sk; once_error := once_error sk;
     written := written sk ++ [buf]; ended := ended sk; closed := closed sk |}.


(** A connected publisher whose socket closed and that connected again. *)
Definition reconnected : World :=
  exec CallConnect (exec (Emit 0 EvClose) connected).

(** While the publisher is ready the promise at hand is not pending. *)
Definition ready_settled (w : World) : Prop :=
  isReady (this w) = true ->
  forall p, connectPromise (this w) = Some p ->
    promises w !! p <> Some Pending.

(** The buffers handed to socket [s] so far. *)
Definition written_to (s : nat) (w : World) : option (list Buffer) :=
  written <$> sockets w !! s.
End Mqtt.

(** ** The metric generator *)

Module Payload.
Import JS.

(** The object that [publishMetric] serialises. *)
Record t : Type := {
  id : jsstring;
  label : jsstring;
  unit : jsstring;
  value : Q;
  publishedAt : Z
}.

End Payload.

Module Sim.
Import JS Mqtt.
Local Open Scope Q_scope.

(** An override generator reads the current value and may call
    [Math.random()]; its first argument is that draw. *)
Record MetricDefinition : Type := {
  id : jsstring;
  label : jsstring;
  unit : jsstring;
  min : Q;
  max : Q;
  smoothing : Q;
  frequency : Q;
  precision : option nat;
  generator : option (Q -> Q -> Q)
}.

Record MetricState : Type := {
  value : Q;
  target : Q
}.

(** [clamp] and [randomInRange]; [random] is the draw of [Math.random()]. *)
Definition clamp (value min max : Q) : Q := Qmin (Qmax value min) max.

Definition randomInRange (min max random : Q) : Q := random * (max - min) + min.

(** [Number(x.toFixed(digits))]: [x] rounded to [digits] decimals, a tie
    going away from zero. *)
Definition toFixed (x : Q) (digits : nat) : Q :=
  let scale := inject_Z (10 ^ Z.of_nat digits) in
  let n := inject_Z (Qfloor (Qabs x * scale + 0.5)) in
  (if Qlt_le_dec x 0 then - n else n) / scale.

(** The table [metrics]. *)
Definition degree : Z := 176.

Definition metrics : list MetricDefinition := [
  {| id := lit "vehicleSpeed"; label := lit "Speed"; unit := lit "km/h";
     min := 0; max := 240; smoothing := 0.2; frequency := 20;
     precision := None; generator := None |};
  {| id := lit "engineRpm"; label := lit "RPM"; unit := lit "rpm";
     min := 700; max := 7200; smoothing := 0.18; frequency := 30;
     precision := None; generator := None |};
  {| id := lit "coolantTemp"; label := lit "Coolant"; unit := degree :: lit "C";
     min := 70; max := 110; smoothing := 0.05; frequency := 5;
     precision := Some 1%nat; generator := None |};
  {| id := lit "oilTemp"; label := lit "Oil Temp"; unit := degree :: lit "C";
     min := 60; max := 130; smoothing := 0.04; frequency := 5;
     precision := Some 1%nat; generator := None |};
  {| id := lit "fuelLevel"; label := lit "Fuel"; unit := lit "%";
     min := 5; max := 100; smoothing := 0.01; frequency := 1;
     precision := Some 1%nat;
     generator := Some (fun random value => Qmax 0 (value - random * 0.1)) |};
  {| id := lit "batteryVoltage"; label := lit "Battery"; unit := lit "V";
     min := 12.2; max := 14.4; smoothing := 0.03; frequency := 2;
     precision := Some 2%nat; generator := None |};
  {| id := lit "instantConsumption"; label := lit "Cons.";
     unit := lit "L/100km";
     min := 3; max := 25; smoothing := 0.2; frequency := 15;
     precision := Some 1%nat; generator := None |};
  {| id := lit "avgConsumption"; label := lit "Avg Cons.";
     unit := lit "L/100km";
     min := 4; max := 12; smoothing := 0.01; frequency := 1;
     precision := Some 1%nat; generator := None |};
  {| id := lit "boostPressure"; label := lit "Boost"; unit := lit "kPa";
     min := 95; max := 190; smoothing := 0.25; frequency := 25;
     precision := Some 1%nat; generator := None |};
  {| id := lit "oilPressure"; label := lit "Oil Press"; unit := lit "kPa";
     min := 200; max := 600; smoothing := 0.1; frequency := 10;
     precision := None; generator := None |};
  {| id := lit "intakeTemp"; label := lit "Intake"; unit := degree :: lit "C";
     min := 20; max := 75; smoothing := 0.06; frequency := 5;
     precision := Some 1%nat; generator := None |};
  {| id := lit "ambientTemp"; label := lit "Ambient"; unit := degree :: lit "C";
     min := -10; max := 45; smoothing := 0.02; frequency := 0.5;
     precision := Some 1%nat; generator := None |};
  {| id := lit "steeringAngle"; label := lit "Steer"; unit := [degree];
     min := -540; max := 540; smoothing := 0.35; frequency := 30;
     precision := Some 0%nat; generator := None |};
  {| id := lit "brakePressure"; label := lit "Brake"; unit := lit "%";
     min := 0; max := 100; smoothing := 0.4; frequency := 30;
     precision := None; generator := None |};
  {| id := lit "throttle"; label := lit "Throttle"; unit := lit "%";
     min := 0; max := 100; smoothing := 0.3; frequency := 30;
     precision := None; generator := None |};
  {| id := lit "gear"; label := lit "Gear"; unit := lit "";
     min := 1; max := 8; smoothing := 1; frequency := 2;
     precision := None;
     generator := Some (fun random _ => inject_Z (Qfloor (random * 8)) + 1) |};
  {| id := lit "odometer"; label := lit "Odo"; unit := lit "km";
     min := 0; max := 200000; smoothing := 0.00001; frequency := 1;
     precision := None;
     generator := Some (fun random value => value + random * 0.05) |};
  {| id := lit "trip"; label := lit "Trip"; unit := lit "km";
     min := 0; max := 500; smoothing := 0.0002; frequency := 2;
     precision := None;
     generator := Some (fun random value => value + random * 0.02) |};
  {| id := lit "tirePressureFrontLeft"; label := lit "FL Tire";
     unit := lit "psi";
     min := 30; max := 38; smoothing := 0.05; frequency := 2;
     precision := Some 1%nat; generator := None |};
  {| id := lit "tirePressureFrontRight"; label := lit "FR Tire";
     unit := lit "psi";
     min := 30; max := 38; smoothing := 0.05; frequency := 2;
     precision := Some 1%nat; generator := None |}
].

(** Two entries of the table, for the examples. *)
Definition coolantTemp : MetricDefinition :=
  {| id := lit "coolantTemp"; label := lit "Coolant"; unit := degree :: lit "C";
     min := 70; max := 110; smoothing := 0.05; frequency := 5;
     precision := Some 1%nat; generator := None |}.

Definition oilTemp : MetricDefinition :=
  {| id := lit "oilTemp"; label := lit "Oil Temp"; unit := degree :: lit "C";
     min := 60; max := 130; smoothing := 0.04; frequency := 5;
     precision := Some 1%nat; generator := None |}.

(** The four entries of the table with an override generator. *)
Definition fuelLevel : MetricDefinition :=
  {| id := lit "fuelLevel"; label := lit "Fuel"; unit := lit "%";
     min := 5; max := 100; smoothing := 0.01; frequency := 1;
     precision := Some 1%nat;
     generator := Some (fun random value => Qmax 0 (value - random * 0.1)) |}.

Definition gear : MetricDefinition :=
  {| id := lit "gear"; label := lit "Gear"; unit := lit "";
     min := 1; max := 8; smoothing := 1; frequency := 2;
     precision := None;
     generator := Some (fun random _ => inject_Z (Qfloor (random * 8)) + 1) |}.

Definition odometer : MetricDefinition :=
  {| id := lit "odometer"; label := lit "Odo"; unit := lit "km";
     min := 0; max := 200000; smoothing := 0.00001; frequency := 1;
     precision := None;
     generator := Some (fun random value => value + random * 0.05) |}.

Definition trip : MetricDefinition :=
  {| id := lit "trip"; label := lit "Trip"; unit := lit "km";
     min := 0; max := 500; smoothing := 0.0002; frequency := 2;
     precision := None;
     generator := Some (fun random value => value + random * 0.02) |}.

(** [metricStates]: the object that maps a metric identifier to its state.
    [Object.fromEntries] lets a later entry replace an earlier one with the
    same key. The [i]-th metric draws [randoms i] for its first target. *)
Fixpoint entries (ms : list MetricDefinition) (randoms : nat -> Q)
    : list (jsstring * MetricState) :=
  match ms with
  | [] => []
  | metric :: ms' =>
      (id metric,
       {| value := min metric;
          target := randomInRange (min metric) (max metric) (randoms 0%nat) |})
        :: entries ms' (fun i => randoms (S i))
  end.

Definition fromEntries (kvs : list (jsstring * MetricState))
    : gmap jsstring MetricState :=
  fold_left (fun acc kv => <[fst kv := snd kv]> acc) kvs ∅.

Definition metricStates (ms : list MetricDefinition) (randoms : nat -> Q)
    : gmap jsstring MetricState :=
  fromEntries (entries ms randoms).

(** [defaultGenerator(metric)], applied to [current] with the draw
    [random]; it reads the target of the metric's state at the time of the
    call. [None] is the [TypeError] of a missing state. *)
Definition defaultGenerator (metric : MetricDefinition)
    (states : gmap jsstring MetricState) (random current : Q) : option Q :=
  match states !! id metric with
  | Some state =>
      let towards := target state - current in
      let noise :=
        (random - 0.5) * smoothing metric * (max metric - min metric) * 0.01 in
      Some (current + towards * smoothing metric + noise)
  | None => None
  end.

(** The first lines of [publishMetric]: the raw next value. *)
Definition nextValue (metric : MetricDefinition)
    (states : gmap jsstring MetricState) (random : Q) : option Q :=
  match states !! id metric with
  | Some state =>
      match generator metric with
      | Some g => Some (g random (value state))
      | None => defaultGenerator metric states random (value state)
      end
  | None => None
  end.

(** The state of [metric] after the two assignments of [publishMetric]:
    the clamped value, and a fresh target when the value is close to the
    old one. [retarget] is the draw of that [randomInRange]. *)
Definition advance (metric : MetricDefinition) (next retarget : Q)
    (state : MetricState) : MetricState :=
  let value' := clamp next (min metric) (max metric) in
  if Qlt_le_dec (Qabs (value' - target state)) (smoothing metric * 5)
  then {| value := value';
          target := randomInRange (min metric) (max metric) retarget |}
  else {| value := value'; target := target state |}.

(** The states after a tick of [metric]: its entry is replaced, unless it
    has none. *)
Definition after_tick (metric : MetricDefinition) (random retarget : Q)
    (states : gmap jsstring MetricState) : gmap jsstring MetricState :=
  match states !! id metric, nextValue metric states random with
  | Some state, Some next =>
      <[id metric := advance metric next retarget state]> states
  | _, _ => states
  end.

Section Process.

(** The environment of the process: the topic prefix, and
    [JSON.stringify] on a payload object. *)
Variable MQTT_TOPIC_PREFIX : jsstring.
Variable JSON_stringify : Payload.t -> jsstring.

(** [publishMetric(metric)]: the exception thrown, if any, the states and
    the publisher's world after the call. [now] is [Date.now()]. *)
Definition publishMetric (metric : MetricDefinition)
    (random retarget : Q) (now : Z)
    (states : gmap jsstring MetricState) (w : World)
    : option JsError * gmap jsstring MetricState * World :=
  match states !! id metric, nextValue metric states random with
  | Some state, Some next =>
      let state' := advance metric next retarget state in
      let states' := <[id metric := state']> states in
      let payload :=
        {| Payload.id := id metric;
           Payload.label := label metric;
           Payload.unit := unit metric;
           Payload.value :=
             toFixed (value state')
               (match precision metric with Some d => d | None => 0%nat end);
           Payload.publishedAt := now |} in
      let topic := MQTT_TOPIC_PREFIX ++ lit "/" ++ id metric in
      let (thrown, w') :=
        publish topic (utf8 (JSON_stringify payload))
          {| retain := Some true; qos := Some QoS0 |} w in
      (thrown, states', w')
  | _, _ => (Some TypeError, states, w)
  end.

(** One firing of a metric's timer. *)
Record Tick : Type := {
  tick_metric : MetricDefinition;
  tick_random : Q;
  tick_retarget : Q;
  tick_now : Z
}.

Definition fire (t : Tick) (sw : gmap jsstring MetricState * World)
    : gmap jsstring MetricState * World :=
  let '(_, states', w') :=
    publishMetric (tick_metric t) (tick_random t) (tick_retarget t)
      (tick_now t) (fst sw) (snd sw) in
  (states', w').

(** The timers fire in some order, each any number of times. *)
Definition fire_all (ticks : list Tick)
    (sw : gmap jsstring MetricState * World)
    : gmap jsstring MetricState * World :=
  fold_left (fun acc t => fire t acc) ticks sw.

End Process.

(** [startMetricTimer]: the period of a metric's timer, in milliseconds. *)
Definition intervalMs (metric : MetricDefinition) : Q :=
  Qmax (1000 / frequency metric) 10.

(** A draw of [Math.random()]. *)
Definition is_random (r : Q) : Prop := 0 <= r /\ r < 1.

(** The invariant of a metric definition (data model): a range that is not
    empty. *)
Definition well_formed (metric : MetricDefinition) : Prop :=
  min metric <= max metric.

Definition in_range (metric : MetricDefinition) (x : Q) : Prop :=
  min metric <= x /\ x <= max metric.

(** Every metric of the table has a state, with value and target in the
    metric's range. *)
Definition bounded (ms : list MetricDefinition)
    (states : gmap jsstring MetricState) : Prop :=
  forall metric, metric ∈ ms ->
    exists state, states !! id metric = Some state /\
      in_range metric (value state) /\ in_range metric (target state).

End Sim.

(** * Properties *)

Import JS Codec Mqtt.

(** ** Integers and bits *)

Section Bits.
Local Open Scope Z_scope.

Lemma ToInt32_small (x : Z) : - 2 ^ 31 <= x < 2 ^ 31 -> ToInt32 x = x.
Proof.
  intros Hx. unfold ToInt32. rewrite Z.mod_small; lia.
Qed.

(** A property of the numbers below [n], checked by running it on each. *)
Lemma below_check (P : Z -> bool) (n : nat) :
  forallb P (map Z.of_nat (seq 0 n)) = true ->
  forall d, 0 <= d < Z.of_nat n -> P d = true.
Proof.
  intros Hall d Hd.
  rewrite forallb_forall in Hall. apply Hall.
  apply in_map_iff. exists (Z.to_nat d). split; [lia|].
  apply in_seq. lia.
Qed.

Lemma digit_last (d : Z) :
  0 <= d < 128 -> Z.land d 127 = d /\ Z.testbit d 7 = false.
Proof.
  intros Hd.
  pose proof (below_check
    (fun d => (Z.land d 127 =? d) && negb (Z.testbit d 7)) 128 eq_refl d Hd)
    as H.
  apply andb_prop in H as [H1 H2].
  apply Z.eqb_eq in H1. apply negb_true_iff in H2. auto.
Qed.

Lemma digit_more (d : Z) :
  0 <= d < 128 ->
  bitor d 0x80 = d + 128 /\ Z.land (d + 128) 127 = d /\
  Z.testbit (d + 128) 7 = true.
Proof.
  intros Hd.
  pose proof (below_check
    (fun d => (bitor d 0x80 =? d + 128) && (Z.land (d + 128) 127 =? d)
              && Z.testbit (d + 128) 7) 128 eq_refl d Hd) as H.
  apply andb_prop in H as [H H3]. apply andb_prop in H as [H1 H2].
  apply Z.eqb_eq in H1. apply Z.eqb_eq in H2. auto.
Qed.

Lemma ToInt32_range (x : Z) : - 2 ^ 31 <= ToInt32 x < 2 ^ 31.
Proof.
  unfold ToInt32.
  pose proof (Z.mod_pos_bound (x + 2 ^ 31) (2 ^ 32)). lia.
Qed.

(** [ToInt32] keeps the low 32 bits. *)
Lemma ToInt32_wrap (x : Z) : exists k, ToInt32 x = x + k * 2 ^ 32.
Proof.
  exists (- ((x + 2 ^ 31) / 2 ^ 32)). unfold ToInt32.
  pose proof (Z.div_mod (x + 2 ^ 31) (2 ^ 32)). lia.
Qed.

(** [x & 0xff] is the low byte of [x]. *)
Lemma bitand_low_byte (x : Z) : bitand x 0xff = x mod 256.
Proof.
  unfold bitand. rewrite (ToInt32_small 255) by lia.
  change 255 with (Z.ones 8). rewrite Z.land_ones by lia.
  destruct (ToInt32_wrap x) as [k ->].
  change (2 ^ 32) with (16777216 * 2 ^ 8). change (2 ^ 8) with 256.
  rewrite Z.mul_assoc, Z.mod_add by lia. reflexivity.
Qed.

(** [(x >> 8) & 0xff] is the second byte of [x]. *)
Lemma bitand_second_byte (x : Z) : bitand (shr x 8) 0xff = (x / 256) mod 256.
Proof.
  rewrite bitand_low_byte. unfold shr.
  change (8 mod 32) with 8. rewrite Z.shiftr_div_pow2 by lia.
  destruct (ToInt32_wrap x) as [k ->].
  change (2 ^ 32) with (16777216 * 2 ^ 8). change (2 ^ 8) with 256.
  rewrite Z.mul_assoc, Z.div_add by lia.
  change 16777216 with (65536 * 256).
  rewrite Z.mul_assoc, Z.mod_add by lia. reflexivity.
Qed.

Lemma ToUint8_byte (b : Z) : 0 <= b < 256 -> ToUint8 b = b.
Proof. intros Hb. unfold ToUint8. apply Z.mod_small. assumption. Qed.

Lemma Buffer_from_bytes (bs : list Z) :
  Forall (fun b => 0 <= b < 256) bs -> Buffer_from bs = bs.
Proof.
  unfold Buffer_from. induction 1 as [|b bs Hb _ IH]; simpl.
  - reflexivity.
  - rewrite ToUint8_byte, IH by assumption. reflexivity.
Qed.

End Bits.

(** ** The variable-length integer *)

Section RemainingLength.
Local Open Scope Z_scope.

(** One round of the loop. *)
Lemma encodeRemainingLength_step (len : Z) :
  encodeRemainingLength len =
  if 0 <? len / 128
  then bitor (Z.rem len 128) 0x80 :: encodeRemainingLength (len / 128)
  else [Z.rem len 128].
Proof.
  funelim (encodeRemainingLength len).
  - rewrite Hmore. reflexivity.
  - rewrite Hlast. reflexivity.
Qed.

Lemma encodeRemainingLength_small (len : Z) :
  0 <= len < 128 -> encodeRemainingLength len = [len].
Proof.
  intros Hlen. rewrite encodeRemainingLength_step.
  rewrite Z.div_small by lia. simpl.
  rewrite Z.rem_small by lia. reflexivity.
Qed.

Lemma encodeRemainingLength_large (len : Z) :
  128 <= len ->
  encodeRemainingLength len =
  (len mod 128 + 128) :: encodeRemainingLength (len / 128).
Proof.
  intros Hlen. rewrite encodeRemainingLength_step.
  assert (0 < len / 128) as Hq by (apply Z.div_str_pos; lia).
  apply Z.ltb_lt in Hq. rewrite Hq.
  rewrite Z.rem_mod_nonneg by lia.
  destruct (digit_more (len mod 128)) as [-> _];
    [apply Z.mod_pos_bound; lia | reflexivity].
Qed.

(** Induction along the rounds of the loop. *)
Lemma rounds_ind (P : Z -> Prop) :
  (forall len, 0 <= len < 128 -> P len) ->
  (forall len, 128 <= len -> P (len / 128) -> P len) ->
  forall len, 0 <= len -> P len.
Proof.
  intros Hlast Hmore len Hlen.
  cut (0 <= len -> P len); [auto|].
  pattern len. apply Z_lt_induction; [|assumption].
  clear len Hlen. intros len IH Hlen.
  destruct (Z_lt_le_dec len 128) as [Hlt|Hge].
  - apply Hlast. lia.
  - apply Hmore; [assumption|].
    assert (0 <= len / 128) by (apply Z.div_pos; lia).
    assert (len / 128 < len) by (apply Z.div_lt; lia).
    apply IH; lia.
Qed.

(** At least one byte is emitted. *)
Lemma encodeRemainingLength_nonempty (len : Z) :
  (1 <= length (encodeRemainingLength len))%nat.
Proof.
  rewrite encodeRemainingLength_step.
  destruct (0 <? len / 128); simpl; lia.
Qed.

(** The [i]-th byte: a byte indeed, its low seven bits are the [i]-th
    base-128 digit of [len], and its top bit tells whether a byte follows. *)
Lemma encodeRemainingLength_digit (len : Z) :
  0 <= len ->
  forall (i : nat) (b : Z),
    encodeRemainingLength len !! i = Some b ->
    (0 <= b < 256) /\
    Z.land b 127 = (len / 128 ^ Z.of_nat i) mod 128 /\
    (Z.testbit b 7 = true <->
     (S i < length (encodeRemainingLength len))%nat).
Proof.
  intros Hlen. pattern len. apply rounds_ind; [| |assumption]; clear len Hlen.
  - intros len Hlen i b Hb.
    rewrite encodeRemainingLength_small in * by assumption.
    destruct i as [|i]; simpl in Hb; [|discriminate].
    injection Hb as Hb. subst b.
    destruct (digit_last len Hlen) as [Hland Hbit].
    rewrite Z.div_1_r, Z.mod_small by lia.
    split; [lia|]. split; [assumption|].
    rewrite Hbit. cbn [length]. split; [discriminate | lia].
  - intros len Hlen IH i b Hb.
    rewrite encodeRemainingLength_large in * by assumption.
    assert (0 <= len mod 128 < 128) as Hd by (apply Z.mod_pos_bound; lia).
    destruct (digit_more _ Hd) as (_ & Hland & Hbit).
    pose proof (encodeRemainingLength_nonempty (len / 128)) as Hne.
    cbn [length].
    destruct i as [|i]; simpl in Hb.
    + injection Hb as Hb. subst b. rewrite Z.div_1_r.
      split; [lia|]. split; [assumption|].
      rewrite Hbit. split; [lia | reflexivity].
    + destruct (IH i b Hb) as (Hrange & Hdigit & Htop).
      split; [lia|]. split.
      * rewrite Hdigit. f_equal.
        rewrite Nat2Z.inj_succ, Z.pow_succ_r by lia.
        rewrite Z.div_div by lia. reflexivity.
      * rewrite Htop. lia.
Qed.

(** Every byte of the encoding is a byte. *)
Lemma encodeRemainingLength_bytes (len : Z) :
  0 <= len -> Forall (fun b => 0 <= b < 256) (encodeRemainingLength len).
Proof.
  intros Hlen. apply Forall_lookup. intros i b Hb.
  apply (encodeRemainingLength_digit len Hlen i b Hb).
Qed.

(** Decoding gives the length back, and stops where the encoding ends. *)
Lemma decode_encode (len : Z) (rest : list Z) :
  0 <= len ->
  decodeRemainingLength (encodeRemainingLength len ++ rest) = Some (len, rest).
Proof.
  intros Hlen. pattern len. apply rounds_ind; [| |assumption]; clear len Hlen.
  - intros len Hlen. rewrite encodeRemainingLength_small by assumption.
    destruct (digit_last len Hlen) as [Hland Hbit].
    cbn [app decodeRemainingLength]. rewrite Hbit, Hland. reflexivity.
  - intros len Hlen IH. rewrite encodeRemainingLength_large by assumption.
    assert (0 <= len mod 128 < 128) as Hd by (apply Z.mod_pos_bound; lia).
    destruct (digit_more _ Hd) as (_ & Hland & Hbit).
    rewrite <- app_comm_cons. cbn [decodeRemainingLength].
    rewrite Hbit, IH, Hland. do 2 f_equal.
    pose proof (Z.div_mod len 128). lia.
Qed.

(** A length below [128 ^ k] takes at most [k] bytes. *)
Lemma encodeRemainingLength_length (len : Z) :
  0 <= len ->
  forall k : nat, len < 128 ^ Z.of_nat (S k) ->
    (length (encodeRemainingLength len) <= S k)%nat.
Proof.
  intros Hlen. pattern len. apply rounds_ind; [| |assumption]; clear len Hlen.
  - intros len Hlen k _. rewrite encodeRemainingLength_small by assumption.
    simpl. lia.
  - intros len Hlen IH k Hk. rewrite encodeRemainingLength_large by assumption.
    simpl. destruct k as [|k]; [simpl in Hk; lia|].
    apply le_n_S, IH.
    rewrite (Nat2Z.inj_succ (S k)), Z.pow_succ_r in Hk by lia.
    apply Z.div_lt_upper_bound; lia.
Qed.

End RemainingLength.

(** C2. For every length [L] from 0 to 268,435,455 the encoding has
    between one and four bytes; its [i]-th byte carries the [i]-th group
    of seven low-order bits of [L], with the top bit set exactly when
    another byte follows; decoding the encoding gives [L] back; and 0, 127,
    128 and 16384 encode to [00], [7F], [80 01] and [80 80 01]. *)
Theorem remaining_length_codec (L : Z) :
  (0 <= L <= 268435455)%Z ->
  (1 <= length (encodeRemainingLength L) <= 4)%nat /\
  (forall (i : nat) (b : Z),
     encodeRemainingLength L !! i = Some b ->
     (0 <= b < 256)%Z /\
     Z.land b 127 = ((L / 128 ^ Z.of_nat i) mod 128)%Z /\
     (Z.testbit b 7 = true <->
      (S i < length (encodeRemainingLength L))%nat)) /\
  (forall rest : list Z,
     decodeRemainingLength (encodeRemainingLength L ++ rest)
     = Some (L, rest)) /\
  encodeRemainingLength 0 = [0x00]%Z /\
  encodeRemainingLength 127 = [0x7F]%Z /\
  encodeRemainingLength 128 = [0x80; 0x01]%Z /\
  encodeRemainingLength 16384 = [0x80; 0x80; 0x01]%Z.
Proof.
  intros [Hlo Hhi]. split; [split|split; [|split]].
  - apply encodeRemainingLength_nonempty.
  - apply (encodeRemainingLength_length L Hlo 3). simpl. lia.
  - apply encodeRemainingLength_digit. assumption.
  - intros rest. apply decode_encode. assumption.
  - repeat split; vm_compute; reflexivity.
Qed.

Lemma remaining_length_codec_witness :
  encodeRemainingLength 321 = [193; 2]%Z /\
  decodeRemainingLength (encodeRemainingLength 321 ++ [7]%Z)
  = Some (321%Z, [7]%Z).
Proof.
  split; [vm_compute; reflexivity|].
  apply (remaining_length_codec 321). lia.
Defined.

(** ** The string field *)

Section StringField.
Local Open Scope Z_scope.

(** The field is the UTF-8 bytes behind two bytes that hold their number
    modulo 65536, high byte first. *)
Lemma encodeUtf8String_layout (value : jsstring) :
  let n := Z.of_nat (length (utf8 value)) in
  encodeUtf8String value = (n / 256) mod 256 :: n mod 256 :: utf8 value.
Proof.
  unfold encodeUtf8String, Buffer_concat, Buffer_from.
  cbn [List.concat map app]. rewrite app_nil_r.
  rewrite bitand_second_byte, bitand_low_byte.
  rewrite !ToUint8_byte by (apply Z.mod_pos_bound; lia).
  reflexivity.
Qed.

Lemma encodeUtf8String_length (value : jsstring) :
  length (encodeUtf8String value) = S (S (length (utf8 value))).
Proof. rewrite encodeUtf8String_layout. reflexivity. Qed.

(** The UTF-8 bytes of a string of ASCII letters are its code units. *)
Lemma utf8_ascii (s : jsstring) :
  Forall (fun u => 0 <= u < 128) s -> utf8 s = s.
Proof.
  induction 1 as [|u s Hu _ IH]; [reflexivity|].
  cbn [utf8]. unfold is_high_surrogate, is_low_surrogate, utf8_scalar.
  replace (55296 <=? u) with false by (symmetry; apply Z.leb_gt; lia).
  replace (56320 <=? u) with false by (symmetry; apply Z.leb_gt; lia).
  replace (u <? 128) with true by (symmetry; apply Z.ltb_lt; lia).
  cbn [andb app]. rewrite IH. reflexivity.
Qed.

End StringField.

(** C5, as the code has it. The encoder rejects no string: it always
    returns two prefix bytes, holding the number of UTF-8 bytes modulo
    65536 with the high byte first, followed by all the UTF-8 bytes. For a
    string of at most 65,535 UTF-8 bytes the prefix is therefore the exact
    big-endian length. *)
Theorem string_field_layout (value : jsstring) :
  let n := Z.of_nat (length (utf8 value)) in
  encodeUtf8String value
    = ((n / 256) mod 256 :: n mod 256 :: utf8 value)%Z /\
  ((n <= 65535)%Z ->
   exists hi lo : Z,
     encodeUtf8String value = hi :: lo :: utf8 value /\
     (0 <= hi < 256)%Z /\ (0 <= lo < 256)%Z /\ (256 * hi + lo)%Z = n).
Proof.
  intros n. split; [apply encodeUtf8String_layout|].
  intros Hn. exists (n / 256)%Z, (n mod 256)%Z.
  assert (0 <= n)%Z as Hpos by (unfold n; lia).
  assert (0 <= n / 256 < 256)%Z as Hhi.
  { split; [apply Z.div_pos; lia | apply Z.div_lt_upper_bound; lia]. }
  split; [|split; [assumption|split]].
  - rewrite encodeUtf8String_layout. fold n.
    rewrite (Z.mod_small (n / 256)) by assumption. reflexivity.
  - apply Z.mod_pos_bound. lia.
  - pose proof (Z.div_mod n 256). lia.
Qed.

Lemma string_field_layout_witness :
  exists hi lo : Z,
    encodeUtf8String (lit "MQTT") = hi :: lo :: utf8 (lit "MQTT") /\
    (0 <= hi < 256)%Z /\ (0 <= lo < 256)%Z /\ (256 * hi + lo)%Z = 4%Z.
Proof.
  apply (proj2 (string_field_layout (lit "MQTT"))).
  vm_compute. discriminate.
Defined.

(** C5 fails as stated: a string of 65,536 letters "a" has 65,536 UTF-8
    bytes, and the encoder returns a field for it, with the prefix 00 00. *)
Lemma string_field_too_long_accepted :
  let value := repeat 97%Z (Z.to_nat 65536) in
  (65535 < Z.of_nat (length (utf8 value)))%Z /\
  encodeUtf8String value = (0 :: 0 :: utf8 value)%Z.
Proof.
  intros value.
  assert (utf8 value = value) as Hutf8.
  { apply utf8_ascii, Forall_forall. intros u Hu.
    apply list_elem_of_In, repeat_spec in Hu. lia. }
  assert (Z.of_nat (length (utf8 value)) = 65536%Z) as Hlen.
  { rewrite Hutf8. unfold value. rewrite repeat_length. lia. }
  split; [lia|].
  rewrite encodeUtf8String_layout, Hlen. reflexivity.
Qed.

(** ** The publisher: what every reachable world satisfies *)

Section Consistency.

Lemma live_mark (s : nat) (w : World) :
  live s w = true <-> exists e, marks w !! s = Some (false, e).
Proof.
  unfold live, marks. rewrite list_lookup_fmap.
  destruct (sockets w !! s) as [sk|]; simpl.
  - unfold mark. destruct (closed sk); simpl; split.
    + discriminate.
    + intros [e He]. discriminate.
    + eauto.
    + reflexivity.
  - split; [discriminate | intros [e He]; discriminate].
Qed.

Lemma consistent_same (w w' : World) :
  this w' = this w -> marks w' = marks w -> consistent w -> consistent w'.
Proof.
  intros Hthis Hmarks [Hlive Hready].
  split; rewrite Hthis, Hmarks; assumption.
Qed.

(** Replacing a socket by one with the same mark changes no mark. *)
Lemma marks_insert (w : World) (s : nat) (sk sk' : Socket) :
  sockets w !! s = Some sk -> mark sk' = mark sk ->
  marks (set_sockets (<[s := sk']> (sockets w)) w) = marks w.
Proof.
  intros Hs Hmark. unfold marks. simpl.
  rewrite list_fmap_insert, Hmark.
  apply list_insert_id. rewrite list_lookup_fmap, Hs. reflexivity.
Qed.

Lemma socket_write_this (s : nat) (buf : Buffer) (w : World) :
  this (socket_write s buf w) = this w.
Proof. unfold socket_write. destruct (sockets w !! s); reflexivity. Qed.

Lemma socket_write_marks (s : nat) (buf : Buffer) (w : World) :
  marks (socket_write s buf w) = marks w.
Proof.
  unfold socket_write.
  destruct (sockets w !! s) as [sk|] eqn:Hs; [|reflexivity].
  apply (marks_insert w s sk); [assumption | reflexivity].
Qed.

Lemma socket_write_promises (s : nat) (buf : Buffer) (w : World) :
  promises (socket_write s buf w) = promises w.
Proof. unfold socket_write. destruct (sockets w !! s); reflexivity. Qed.

Lemma socket_end_this (s : nat) (w : World) : this (socket_end s w) = this w.
Proof. unfold socket_end. destruct (sockets w !! s); reflexivity. Qed.

Lemma socket_end_marks (s : nat) (w : World) : marks (socket_end s w) = marks w.
Proof.
  unfold socket_end. destruct (sockets w !! s) as [sk|] eqn:Hs; [|reflexivity].
  apply (marks_insert w s sk); [assumption | reflexivity].
Qed.

Lemma settle_this (p : nat) (st : PromiseState) (w : World) :
  this (settle p st w) = this w.
Proof.
  unfold settle. destruct (promises w !! p) as [[]|]; reflexivity.
Qed.

Lemma settle_marks (p : nat) (st : PromiseState) (w : World) :
  marks (settle p st w) = marks w.
Proof.
  unfold settle. destruct (promises w !! p) as [[]|]; reflexivity.
Qed.

Lemma settle_sockets (p : nat) (st : PromiseState) (w : World) :
  sockets (settle p st w) = sockets w.
Proof.
  unfold settle. destruct (promises w !! p) as [[]|]; reflexivity.
Qed.

(** Settling a pending promise records the outcome. *)
Lemma settle_pending (p : nat) (st : PromiseState) (w : World) :
  promises w !! p = Some Pending -> promises (settle p st w) !! p = Some st.
Proof.
  intros Hp. unfold settle. rewrite Hp. simpl.
  apply list_lookup_insert_eq. apply lookup_lt_Some in Hp. assumption.
Qed.

(** [connect] with a promise at hand does nothing. *)
Lemma connect_again (w : World) (p : nat) :
  connectPromise (this w) = Some p -> connect w = (p, w).
Proof. intros Hp. unfold connect. rewrite Hp. reflexivity. Qed.

Lemma consistent_constructor (brokerUrl : URL) (clientId : option jsstring)
    (suffix : jsstring) :
  consistent (constructor brokerUrl clientId suffix).
Proof.
  split; simpl.
  - intros s e Hs. unfold marks in Hs. simpl in Hs. discriminate.
  - discriminate.
Qed.

Lemma consistent_connect (w : World) :
  consistent w -> consistent (snd (connect w)).
Proof.
  intros Hw. unfold connect.
  destruct (connectPromise (this w)) as [p|] eqn:Hcp; [assumption|].
  destruct Hw as [Hlive Hready].
  assert (forall s e, marks w !! s = Some (false, e) -> False) as Hnone.
  { intros s e Hs. apply Hlive in Hs as [_ Hs]. congruence. }
  assert (length (marks w) = length (sockets w)) as Hlen
    by (unfold marks; apply length_fmap).
  split; simpl.
  - intros s e. unfold marks. simpl. rewrite fmap_app. simpl.
    fold (marks w). intros Hs.
    destruct (decide (s < length (marks w))%nat) as [Hlt|Hge].
    + rewrite lookup_app_l in Hs by assumption.
      exfalso. eapply Hnone, Hs.
    + rewrite lookup_app_r in Hs by lia.
      destruct (s - length (marks w))%nat as [|n] eqn:Hn; simpl in Hs;
        [|discriminate].
      injection Hs as <-. split; f_equal; lia.
  - intros Hr. destruct (Hready Hr) as (s & e & _ & Hs).
    exfalso. eapply Hnone, Hs.
Qed.

Lemma consistent_publish (topic : jsstring) (payload : Buffer)
    (options : PublishOptions) (w : World) :
  consistent w -> consistent (snd (publish topic payload options w)).
Proof.
  intros Hw. unfold publish.
  destruct (socket (this w)) as [s|]; [|assumption].
  destruct (isReady (this w)); [|assumption].
  simpl. eapply consistent_same; [| |exact Hw].
  - apply socket_write_this.
  - apply socket_write_marks.
Qed.

Lemma consistent_end (w : World) : consistent w -> consistent (end_ w).
Proof.
  intros Hw. unfold end_. destruct (socket (this w)) as [s|]; [|assumption].
  eapply consistent_same; [| |exact Hw].
  - apply socket_end_this.
  - apply socket_end_marks.
Qed.

End Consistency.

Section Events.

Lemma consistent_on_connect (s : nat) (sk : Socket) (w : World) :
  sockets w !! s = Some sk -> consistent w -> consistent (on_connect s sk w).
Proof.
  intros Hs Hw. unfold on_connect.
  destruct (once_connect sk); [|assumption].
  set (w1 := set_sockets (<[s := disarm_connect sk]> (sockets w)) w).
  assert (consistent w1) as Hw1.
  { apply (consistent_same w); [reflexivity| |exact Hw].
    apply (marks_insert w s sk); [assumption | reflexivity]. }
  destruct (socket (this w1)) as [cur|]; [|assumption].
  apply (consistent_same w1); [| |exact Hw1].
  - apply socket_write_this.
  - apply socket_write_marks.
Qed.

Lemma consistent_on_error (s : nat) (sk : Socket) (code : Z) (w : World) :
  sockets w !! s = Some sk -> consistent w -> consistent (on_error s sk code w).
Proof.
  intros Hs Hw. unfold on_error.
  destruct (once_error sk); [|assumption].
  unfold reject.
  apply (consistent_same w); [rewrite settle_this; reflexivity| |exact Hw].
  rewrite settle_marks.
  apply (marks_insert w s sk); [assumption | reflexivity].
Qed.

Lemma consistent_on_data (s : nat) (sk : Socket) (chunk : Buffer) (w : World) :
  sockets w !! s = Some sk -> closed sk = false ->
  consistent w -> consistent (on_data sk chunk w).
Proof.
  intros Hs Hopen Hw. unfold on_data.
  destruct (negb (isReady (this w)) && (4 <=? Z.of_nat (length chunk)))%Z;
    [|assumption].
  destruct (byte_is chunk 0 32 && byte_ge chunk 1 2 && byte_is chunk 3 0).
  - unfold resolve. destruct Hw as [Hlive Hready].
    split; rewrite settle_this, settle_marks; simpl.
    + exact Hlive.
    + intros _. exists s, (executor sk).
      assert (marks w !! s = Some (false, executor sk)) as Hm.
      { unfold marks. rewrite list_lookup_fmap, Hs. simpl.
        unfold mark. rewrite Hopen. reflexivity. }
      split; [apply (Hlive s (executor sk) Hm) | exact Hm].
  - unfold reject. apply (consistent_same w);
      [apply settle_this | apply settle_marks | exact Hw].
Qed.

Lemma consistent_on_close (s : nat) (sk : Socket) (w : World) :
  sockets w !! s = Some sk -> closed sk = false ->
  consistent w -> consistent (on_close s sk w).
Proof.
  intros Hs Hopen [Hlive Hready]. unfold on_close.
  assert (marks w !! s = Some (false, executor sk)) as Hm.
  { unfold marks. rewrite list_lookup_fmap, Hs. simpl.
    unfold mark. rewrite Hopen. reflexivity. }
  split; simpl; [|discriminate].
  intros s' e. unfold marks. simpl. rewrite list_fmap_insert. fold (marks w).
  intros Hs'. exfalso.
  destruct (decide (s' = s)) as [->|Hne].
  - rewrite list_lookup_insert_eq in Hs' by (eapply lookup_lt_Some, Hm).
    discriminate.
  - rewrite list_lookup_insert_ne in Hs' by congruence.
    apply Hlive in Hs' as [Hs' _]. apply Hlive in Hm as [Hm _]. congruence.
Qed.

Lemma consistent_exec (a : Action) (w : World) :
  enabled a w = true -> consistent w -> consistent (exec a w).
Proof.
  intros Ha Hw. destruct a as [|topic payload options| |s ev]; simpl.
  - apply consistent_connect, Hw.
  - apply consistent_publish, Hw.
  - apply consistent_end, Hw.
  - simpl in Ha. unfold live in Ha. unfold emit.
    destruct (sockets w !! s) as [sk|] eqn:Hs; [|discriminate].
    apply negb_true_iff in Ha.
    destruct ev as [|code|chunk|].
    + apply consistent_on_connect; assumption.
    + apply consistent_on_error; assumption.
    + apply (consistent_on_data s); assumption.
    + apply consistent_on_close; assumption.
Qed.

Lemma consistent_run (acts : list Action) (w w' : World) :
  run acts w = Some w' -> consistent w -> consistent w'.
Proof.
  revert w. induction acts as [|a acts IH]; intros w Hrun Hw; simpl in Hrun.
  - injection Hrun as <-. assumption.
  - destruct (enabled a w) eqn:Ha; [|discriminate].
    apply (IH (exec a w)); [assumption|].
    apply consistent_exec; assumption.
Qed.

Lemma reachable_consistent (w : World) : reachable w -> consistent w.
Proof.
  intros (brokerUrl & clientId & suffix & acts & Hrun).
  eapply consistent_run; [exact Hrun|]. apply consistent_constructor.
Qed.

(** A ready publisher has a current socket in the store, and a promise. *)
Lemma ready_socket (w : World) :
  consistent w -> isReady (this w) = true ->
  exists (s : nat) (sk : Socket),
    socket (this w) = Some s /\ sockets w !! s = Some sk /\
    closed sk = false /\ connectPromise (this w) = Some (executor sk).
Proof.
  intros [Hlive Hready] Hr.
  destruct (Hready Hr) as (s & e & Hsock & Hm).
  pose proof (Hlive s e Hm) as [_ Hcp].
  unfold marks in Hm. rewrite list_lookup_fmap in Hm.
  destruct (sockets w !! s) as [sk|] eqn:Hs; [|discriminate].
  simpl in Hm. unfold mark in Hm. injection Hm as Hc He.
  exists s, sk. subst e. auto.
Qed.

(** The handlers of a socket that has not closed settle the promise that
    [connect] hands out. *)
Lemma live_executor (w : World) (s : nat) (sk : Socket) :
  consistent w -> sockets w !! s = Some sk -> closed sk = false ->
  socket (this w) = Some s /\ connectPromise (this w) = Some (executor sk).
Proof.
  intros [Hlive _] Hs Hopen. apply Hlive.
  unfold marks. rewrite list_lookup_fmap, Hs. simpl.
  unfold mark. rewrite Hopen. reflexivity.
Qed.

End Events.

(** ** The handshake *)

(** The worlds of the examples are reached from [fresh] by the actions
    that define them. *)
Ltac from_fresh acts :=
  exists broker, (Some (lit "sim-1")), (@nil Z), acts; reflexivity.

Section Handshake.

(** The test of the data handler is the acknowledgement being accepted. *)
Lemma accepted_test (chunk : Buffer) :
  byte_is chunk 0 0x20 && byte_ge chunk 1 0x02 && byte_is chunk 3 0x00 = true
  <-> accepted chunk.
Proof.
  unfold byte_is, byte_ge, accepted.
  destruct (chunk !! 0%nat) as [b0|]; simpl.
  2: { split; [discriminate | intros [H _]; discriminate]. }
  destruct (chunk !! 1%nat) as [b1|]; simpl.
  2: { rewrite andb_false_r. split; [discriminate|].
       intros (_ & (b1 & H & _) & _). discriminate. }
  destruct (chunk !! 3%nat) as [b3|]; simpl.
  2: { rewrite andb_false_r. split; [discriminate|].
       intros (_ & _ & H). discriminate. }
  rewrite !andb_true_iff, !Z.eqb_eq, Z.leb_le. split.
  - intros [[-> Hb1] ->]. eauto.
  - intros (H0 & (b & Hb & Hle) & H3).
    injection H0 as ->. injection Hb as ->. injection H3 as ->. auto.
Qed.

(** The first chunk of four bytes or more, accepted: the promise of the
    socket's handlers is fulfilled and the publisher is ready. *)
Lemma on_data_accepted (sk : Socket) (chunk : Buffer) (w : World) :
  isReady (this w) = false -> (4 <= length chunk)%nat -> accepted chunk ->
  promises w !! executor sk = Some Pending ->
  let w' := on_data sk chunk w in
  promises w' !! executor sk = Some Fulfilled /\
  isReady (this w') = true /\
  connectPromise (this w') = connectPromise (this w).
Proof.
  intros Hr Hlen Hacc Hp. unfold on_data. rewrite Hr.
  replace (4 <=? Z.of_nat (length chunk))%Z with true
    by (symmetry; apply Z.leb_le; lia).
  apply accepted_test in Hacc. rewrite Hacc. simpl.
  unfold resolve. rewrite settle_this. simpl.
  split; [|split; reflexivity].
  apply settle_pending. exact Hp.
Qed.

(** The same chunk, not accepted: the promise is rejected, and nothing
    else changes. *)
Lemma on_data_refused (sk : Socket) (chunk : Buffer) (w : World) :
  isReady (this w) = false -> (4 <= length chunk)%nat -> ~ accepted chunk ->
  promises w !! executor sk = Some Pending ->
  let w' := on_data sk chunk w in
  promises w' !! executor sk
    = Some (Rejected (Error "MQTT broker rejected connection")) /\
  this w' = this w /\ sockets w' = sockets w.
Proof.
  intros Hr Hlen Hacc Hp. unfold on_data. rewrite Hr.
  replace (4 <=? Z.of_nat (length chunk))%Z with true
    by (symmetry; apply Z.leb_le; lia).
  rewrite <- accepted_test in Hacc. apply not_true_is_false in Hacc.
  rewrite Hacc. simpl.
  unfold reject. rewrite settle_this, settle_sockets.
  split; [|split; reflexivity].
  apply settle_pending. exact Hp.
Qed.

(** A shorter chunk, or any chunk once ready, is ignored. *)
Lemma on_data_ignored (sk : Socket) (chunk : Buffer) (w : World) :
  isReady (this w) = true \/ (length chunk < 4)%nat ->
  on_data sk chunk w = w.
Proof.
  intros H. unfold on_data.
  destruct H as [-> | Hlen]; [reflexivity|].
  replace (4 <=? Z.of_nat (length chunk))%Z with false
    by (symmetry; apply Z.leb_gt; lia).
  rewrite andb_false_r. reflexivity.
Qed.

(** The close handler: not ready, and no promise at hand. *)
Lemma on_close_resets (s : nat) (sk : Socket) (w : World) :
  let w' := on_close s sk w in
  isReady (this w') = false /\ connectPromise (this w') = None /\
  promises w' = promises w /\ length (sockets w') = length (sockets w).
Proof.
  unfold on_close. simpl. rewrite length_insert. auto.
Qed.

(** [connect] with no promise at hand makes a pending promise and a
    socket, both new. *)
Lemma connect_fresh (w : World) :
  connectPromise (this w) = None ->
  let p := length (promises w) in
  let s := length (sockets w) in
  exists w', connect w = (p, w') /\
    promises w' = promises w ++ [Pending] /\
    promises w' !! p = Some Pending /\
    length (sockets w') = S s /\
    socket (this w') = Some s /\ connectPromise (this w') = Some p /\
    live s w' = true.
Proof.
  intros Hcp. unfold connect. rewrite Hcp. eexists. split; [reflexivity|].
  simpl. repeat split.
  - rewrite lookup_app_r by lia. rewrite Nat.sub_diag. reflexivity.
  - rewrite length_app. simpl. lia.
  - unfold live. simpl. rewrite lookup_app_r by lia.
    rewrite Nat.sub_diag. reflexivity.
Qed.

(** The attempt that [connect] starts is in flight. *)
Lemma in_flight_connect (w : World) :
  consistent w -> connectPromise (this w) = None ->
  in_flight (length (promises w)) (length (sockets w)) (snd (connect w)).
Proof.
  intros Hw Hcp.
  assert (isReady (this w) = false) as Hr.
  { destruct (isReady (this w)) eqn:Hr; [|reflexivity].
    destruct (ready_socket w Hw Hr) as (s & sk & _ & _ & _ & H). congruence. }
  unfold connect. rewrite Hcp. unfold in_flight, marks. simpl.
  split; [reflexivity|]. split; [|split; [assumption|split; [reflexivity|]]].
  - rewrite lookup_app_r by lia. rewrite Nat.sub_diag. reflexivity.
  - rewrite fmap_app, lookup_app_r by (rewrite length_fmap; lia).
    rewrite length_fmap, Nat.sub_diag. reflexivity.
Qed.

Lemma in_flight_same (p s : nat) (w w' : World) :
  this w' = this w -> promises w' = promises w -> marks w' = marks w ->
  in_flight p s w -> in_flight p s w'.
Proof.
  intros Hthis Hps Hmarks. unfold in_flight.
  rewrite Hthis, Hps, Hmarks. auto.
Qed.

(** It stays in flight through method calls, the connect event and short
    chunks. *)
Lemma in_flight_exec (p s : nat) (a : Action) (w : World) :
  quiet a = true -> in_flight p s w -> in_flight p s (exec a w).
Proof.
  intros Hq Hw. pose proof Hw as (Hcp & Hp & Hr & Hsock & Hm).
  destruct a as [|topic payload options| |s' ev]; simpl.
  - rewrite (connect_again w p Hcp). assumption.
  - unfold publish. rewrite Hsock, Hr. assumption.
  - unfold end_. rewrite Hsock.
    apply (in_flight_same p s w); [| |apply socket_end_marks|assumption].
    + apply socket_end_this.
    + unfold socket_end. destruct (sockets w !! s); reflexivity.
  - unfold emit. destruct (sockets w !! s') as [sk'|] eqn:Hs'; [|assumption].
    destruct ev as [|code|chunk|]; simpl in Hq; try discriminate.
    + unfold on_connect. destruct (once_connect sk'); [|assumption].
      set (w1 := set_sockets (<[s' := disarm_connect sk']> (sockets w)) w).
      assert (in_flight p s w1) as Hw1.
      { apply (in_flight_same p s w); [reflexivity|reflexivity| |assumption].
        apply (marks_insert w s' sk'); [assumption|reflexivity]. }
      destruct (socket (this w1)) as [cur|]; [|assumption].
      apply (in_flight_same p s w1); [| | |assumption].
      * apply socket_write_this.
      * apply socket_write_promises.
      * apply socket_write_marks.
    + rewrite on_data_ignored; [assumption|].
      right. apply Z.ltb_lt in Hq. lia.
Qed.

Lemma in_flight_run (p s : nat) (acts : list Action) (w w' : World) :
  forallb quiet acts = true -> run acts w = Some w' ->
  in_flight p s w -> in_flight p s w'.
Proof.
  revert w. induction acts as [|a acts IH]; intros w Hq Hrun Hw; simpl in *.
  - injection Hrun as <-. assumption.
  - apply andb_prop in Hq as [Ha Hq].
    destruct (enabled a w); [|discriminate].
    apply (IH (exec a w)); [assumption|assumption|].
    apply in_flight_exec; assumption.
Qed.

End Handshake.

(** While the promise at hand is pending and the publisher is not ready,
    a chunk of four or more bytes on a socket that has not closed settles
    that promise. *)
Lemma pending_chunk_decides (w : World) (s p : nat) (chunk : Buffer) :
  consistent w -> live s w = true ->
  isReady (this w) = false ->
  connectPromise (this w) = Some p -> promises w !! p = Some Pending ->
  (4 <= length chunk)%nat ->
  let w' := emit s (EvData chunk) w in
  (accepted chunk ->
   promises w' !! p = Some Fulfilled /\ Ready w') /\
  (~ accepted chunk ->
   promises w' !! p
     = Some (Rejected (Error "MQTT broker rejected connection")) /\
   ~ Ready w').
Proof.
  intros Hw Hlive Hr Hcp Hp Hlen.
  unfold live in Hlive. unfold emit.
  destruct (sockets w !! s) as [sk|] eqn:Hs; [|discriminate].
  apply negb_true_iff in Hlive.
  destruct (live_executor w s sk Hw Hs Hlive) as [_ Hexec].
  assert (executor sk = p) as He by congruence.
  rewrite <- He in *. split; intros Hacc.
  - destruct (on_data_accepted sk chunk w Hr Hlen Hacc Hp) as (H1 & H2 & _).
    split; assumption.
  - destruct (on_data_refused sk chunk w Hr Hlen Hacc Hp) as (H1 & H2 & _).
    split; [assumption|]. unfold Ready. rewrite H2, Hr. discriminate.
Qed.

(** C3. Take a call of [connect] that opens a socket, then any method
    calls, the connect event and chunks of fewer than four bytes, in any
    order. The socket is still open, and the first chunk of four or more
    bytes on it decides the attempt: with byte 0 equal to 0x20, byte 1 at
    least 2 and byte 3 equal to 0 the promise that [connect] returned is
    fulfilled and the publisher is ready; with any other bytes the promise
    is rejected with the "broker rejected" error and the publisher is not
    ready. *)
Theorem handshake_outcome (w0 w : World) (acts : list Action)
    (chunk : Buffer) :
  reachable w0 -> connectPromise (this w0) = None ->
  forallb quiet acts = true -> run acts (snd (connect w0)) = Some w ->
  (4 <= length chunk)%nat ->
  let p := fst (connect w0) in
  let s := length (sockets w0) in
  let w' := emit s (EvData chunk) w in
  live s w = true /\
  (accepted chunk -> promises w' !! p = Some Fulfilled /\ Ready w') /\
  (~ accepted chunk ->
   promises w' !! p
     = Some (Rejected (Error "MQTT broker rejected connection")) /\
   ~ Ready w').
Proof.
  intros Hreach Hcp Hq Hrun Hlen p s w'.
  apply reachable_consistent in Hreach.
  assert (consistent w) as Hw.
  { apply (consistent_run acts (snd (connect w0))); [exact Hrun|].
    apply consistent_connect. exact Hreach. }
  assert (p = length (promises w0)) as Hp
    by (unfold p, connect; rewrite Hcp; reflexivity).
  pose proof (in_flight_connect w0 Hreach Hcp) as Hw1.
  pose proof (in_flight_run _ _ acts _ w Hq Hrun Hw1) as Hfl.
  rewrite <- Hp in Hfl. fold s in Hfl.
  destruct Hfl as (Hcp' & Hpend & Hr & _ & Hm).
  assert (live s w = true) as Hlive by (apply live_mark; eauto).
  split; [exact Hlive|].
  apply pending_chunk_decides; assumption.
Qed.

Lemma handshake_outcome_witness :
  promises connected !! 0%nat = Some Fulfilled /\ Ready connected.
Proof.
  destruct (handshake_outcome fresh connecting [Emit 0 EvConnect]
              [0x20; 0x02; 0x00; 0x00]%Z) as (_ & Hacc & _).
  - from_fresh (@nil Action).
  - reflexivity.
  - reflexivity.
  - reflexivity.
  - simpl. lia.
  - apply Hacc. unfold accepted. simpl.
    split; [reflexivity|]. split; [|reflexivity].
    exists 2%Z. split; [reflexivity | lia].
Defined.

(** C4. Without a socket, or before the publisher is ready, [publish]
    throws the "not connected" error and leaves the world, every socket's
    written data included, as it was. *)
Theorem publish_not_connected (w : World) (topic : jsstring)
    (payload : Buffer) (options : PublishOptions) :
  socket (this w) = None \/ isReady (this w) = false ->
  publish topic payload options w
    = (Some (Error "MQTT publisher not connected"), w).
Proof.
  intros H. unfold publish.
  destruct H as [-> | Hr]; [reflexivity|].
  rewrite Hr. destruct (socket (this w)); reflexivity.
Qed.

Lemma publish_not_connected_witness :
  publish (lit "hmi/metrics/gear") [0x7B; 0x7D]%Z
    {| retain := Some true; qos := Some QoS0 |} connecting
  = (Some (Error "MQTT publisher not connected"), connecting).
Proof.
  apply publish_not_connected. right. reflexivity.
Defined.

(** C6 fails as stated: after the broker refuses the handshake with return
    code 5 the promise is rejected, yet it is still the promise at hand,
    the socket has not closed, and a later [connect] returns that rejected
    promise without opening a socket. *)
Lemma refused_handshake_keeps_promise :
  promises refused !! 0%nat
    = Some (Rejected (Error "MQTT broker rejected connection")) /\
  connectPromise (this refused) = Some 0%nat /\
  connectPromise (this refused) <> None /\
  live 0 refused = true /\
  connect refused = (0%nat, refused).
Proof.
  repeat split. discriminate.
Qed.

(** C6, as the code has it. When the handshake fails the pending promise
    is rejected and the publisher stays not ready, but nothing else
    changes: the rejected promise stays at hand and the socket open, so a
    later [connect] returns the same failed attempt and opens no socket.
    It is the close event of the socket that resets readiness and clears
    the promise, and the [connect] after it makes a new pending promise
    and a new socket. *)
Theorem handshake_failure (w : World) (s p : nat) (chunk : Buffer) :
  reachable w -> live s w = true ->
  isReady (this w) = false ->
  connectPromise (this w) = Some p -> promises w !! p = Some Pending ->
  (4 <= length chunk)%nat -> ~ accepted chunk ->
  let w1 := emit s (EvData chunk) w in
  let w2 := emit s EvClose w1 in
  (promises w1 !! p
     = Some (Rejected (Error "MQTT broker rejected connection")) /\
   isReady (this w1) = false /\
   connectPromise (this w1) = Some p /\
   live s w1 = true /\
   connect w1 = (p, w1)) /\
  (isReady (this w2) = false /\
   connectPromise (this w2) = None /\
   exists (p' : nat) (w3 : World),
     connect w2 = (p', w3) /\ p' <> p /\
     promises w3 !! p' = Some Pending /\
     promises w3 !! p
       = Some (Rejected (Error "MQTT broker rejected connection")) /\
     length (sockets w3) = S (length (sockets w2)) /\
     socket (this w3) = Some (length (sockets w2)) /\
     live (length (sockets w2)) w3 = true).
Proof.
  intros Hreach Hlive Hr Hcp Hp Hlen Hacc.
  apply reachable_consistent in Hreach.
  destruct (sockets w !! s) as [sk|] eqn:Hs;
    [|unfold live in Hlive; rewrite Hs in Hlive; discriminate].
  assert (closed sk = false) as Hopen.
  { unfold live in Hlive. rewrite Hs in Hlive.
    apply negb_true_iff in Hlive. exact Hlive. }
  destruct (live_executor w s sk Hreach Hs Hopen) as [_ Hexec].
  assert (executor sk = p) as He by congruence.
  rewrite <- He in *.
  assert (emit s (EvData chunk) w = on_data sk chunk w) as Hemit
    by (unfold emit; rewrite Hs; reflexivity).
  cbv zeta. rewrite !Hemit.
  destruct (on_data_refused sk chunk w Hr Hlen Hacc Hp) as (H1 & H2 & H3).
  set (w1 := on_data sk chunk w) in *.
  assert (emit s EvClose w1 = on_close s sk w1) as Hemit1
    by (unfold emit; rewrite H3, Hs; reflexivity).
  rewrite !Hemit1.
  assert (live s w1 = true) as Hlive1.
  { unfold live. rewrite H3, Hs, Hopen. reflexivity. }
  split.
  - rewrite H2. repeat split; try assumption.
    apply connect_again. rewrite H2. assumption.
  - destruct (on_close_resets s sk w1) as (Hr2 & Hcp2 & Hps2 & Hss2).
    set (w2 := on_close s sk w1) in *.
    split; [assumption|]. split; [assumption|].
    destruct (connect_fresh w2 Hcp2)
      as (w3 & Hc & Hps3 & Hp3 & Hl3 & Hs3 & _ & Hlv3).
    exists (length (promises w2)), w3.
    assert (executor sk < length (promises w1))%nat as Hlt
      by (eapply lookup_lt_Some, H1).
    repeat split; try assumption.
    + rewrite Hps2. lia.
    + rewrite Hps3, Hps2. rewrite lookup_app_l by assumption. assumption.
Qed.

Lemma handshake_failure_witness :
  connectPromise (this refused) = Some 0%nat /\
  connectPromise (this (emit 0 EvClose refused)) = None.
Proof.
  destruct (handshake_failure connecting 0 0 [0x20; 0x02; 0x00; 0x05]%Z)
    as [(_ & _ & H1 & _) (_ & H2 & _)].
  - from_fresh [CallConnect; Emit 0 EvConnect].
  - reflexivity.
  - reflexivity.
  - reflexivity.
  - reflexivity.
  - simpl. lia.
  - unfold accepted. simpl. intros (_ & _ & H). discriminate.
  - split; [exact H1 | exact H2].
Defined.

(** C7. While a connect attempt is in flight, or once the publisher is
    ready, [connect] returns the promise of that attempt and changes
    nothing: no promise and no socket is made. *)
Theorem connect_idempotent (w : World) :
  reachable w -> Connecting w \/ Ready w ->
  exists p : nat,
    connectPromise (this w) = Some p /\
    connect w = (p, w) /\
    sockets (snd (connect w)) = sockets w /\
    promises (snd (connect w)) = promises w.
Proof.
  intros Hreach Hstate. apply reachable_consistent in Hreach.
  assert (exists p, connectPromise (this w) = Some p) as [p Hp].
  { destruct Hstate as [(p & Hp & _) | Hr]; [eauto|].
    destruct (ready_socket w Hreach Hr) as (s & sk & _ & _ & _ & Hp). eauto. }
  exists p. rewrite (connect_again w p Hp). auto.
Qed.

Lemma connect_idempotent_witness :
  connect connected = (0%nat, connected) /\
  connect connecting = (0%nat, connecting).
Proof.
  destruct (connect_idempotent connected) as (p & Hp & Hc & _).
  { from_fresh (handshake [0x20; 0x02; 0x00; 0x00]%Z). }
  { right. reflexivity. }
  destruct (connect_idempotent connecting) as (q & Hq & Hd & _).
  { from_fresh [CallConnect; Emit 0 EvConnect]. }
  { left. exists 0%nat. split; reflexivity. }
  injection Hp as <-. injection Hq as <-. split; assumption.
Defined.

(** ** The publish frame *)

Section PublishFrame.
Local Open Scope Z_scope.

(** A frame written by a ready publisher. *)
Lemma publish_ready (w : World) (s : nat) (topic : jsstring)
    (payload : Buffer) (options : PublishOptions) :
  socket (this w) = Some s -> isReady (this w) = true ->
  let field := encodeUtf8String topic in
  let n := Z.of_nat (length field) + Z.of_nat (length payload) in
  publish topic payload options w
  = (None,
     socket_write s
       (fixed_header options :: encodeRemainingLength n ++ field ++ payload) w).
Proof.
  intros Hs Hr. unfold publish. rewrite Hs, Hr. cbv zeta.
  match goal with
  | |- context [bitor (bitor 48 ?a) ?b] =>
      replace (bitor (bitor 48 a) b) with (fixed_header options)
        by (destruct options as [[[]|] [[]|]]; reflexivity)
  end.
  rewrite Buffer_from_bytes.
  - unfold Buffer_concat. cbn [List.concat]. rewrite app_nil_r. reflexivity.
  - constructor; [|apply encodeRemainingLength_bytes; lia].
    destruct options as [[[]|] [[]|]]; vm_compute; split; congruence.
Qed.

Lemma socket_write_written (w : World) (s : nat) (sk : Socket) (buf : Buffer) :
  sockets w !! s = Some sk ->
  written <$> sockets (socket_write s buf w) !! s = Some (written sk ++ [buf]).
Proof.
  intros Hs. unfold socket_write. rewrite Hs. simpl.
  rewrite list_lookup_insert_eq by (eapply lookup_lt_Some, Hs). reflexivity.
Qed.

End PublishFrame.

(** C1. A ready publisher asked to publish writes one frame to its socket:
    the fixed header byte, the remaining length, the topic field and the
    payload bytes, with nothing in between, whatever the quality of
    service passed in. The remaining-length bytes decode to the length of
    the topic field plus the length of the payload, and what follows them
    is the topic field and the payload. With retain set and quality of
    service 0 the fixed header byte is 0x31. *)
Theorem publish_frame (w : World) (topic : jsstring) (payload : Buffer)
    (options : PublishOptions) :
  reachable w -> Ready w ->
  let field := encodeUtf8String topic in
  let n := (Z.of_nat (length field) + Z.of_nat (length payload))%Z in
  let packet :=
    fixed_header options :: encodeRemainingLength n ++ field ++ payload in
  exists (s : nat) (sk : Socket),
    socket (this w) = Some s /\ sockets w !! s = Some sk /\
    publish topic payload options w = (None, socket_write s packet w) /\
    written <$> sockets (socket_write s packet w) !! s
      = Some (written sk ++ [packet]) /\
    decodeRemainingLength (tail packet) = Some (n, field ++ payload) /\
    n = Z.of_nat (length (field ++ payload)) /\
    (retain options = Some true -> qos options = Some QoS0 ->
     head packet = Some 0x31%Z).
Proof.
  intros Hreach Hr field n packet.
  apply reachable_consistent in Hreach.
  destruct (ready_socket w Hreach Hr) as (s & sk & Hsock & Hs & _ & _).
  exists s, sk. split; [assumption|]. split; [assumption|].
  split; [apply publish_ready; assumption|].
  split; [apply socket_write_written; assumption|].
  split; [|split].
  - apply decode_encode. unfold n. lia.
  - unfold n. rewrite length_app. lia.
  - intros Hret Hqos. unfold packet, fixed_header.
    rewrite Hret, Hqos. reflexivity.
Qed.

Lemma publish_frame_witness :
  fst (publish (lit "hmi/metrics/coolantTemp") [0x7B; 0x7D]%Z
         {| retain := Some true; qos := Some QoS0 |} connected) = None.
Proof.
  destruct (publish_frame connected (lit "hmi/metrics/coolantTemp")
              [0x7B; 0x7D]%Z {| retain := Some true; qos := Some QoS0 |})
    as (s & sk & _ & _ & Hpub & _).
  - from_fresh (handshake [0x20; 0x02; 0x00; 0x00]%Z).
  - reflexivity.
  - rewrite Hpub. reflexivity.
Defined.

(** ** The metric generator *)

Section Generator.
Local Open Scope Q_scope.

Lemma clamp_in_range (metric : Sim.MetricDefinition) (next : Q) :
  Sim.well_formed metric ->
  Sim.in_range metric (Sim.clamp next (Sim.min metric) (Sim.max metric)).
Proof.
  unfold Sim.well_formed, Sim.in_range, Sim.clamp. intros Hwf.
  destruct (Q.max_spec next (Sim.min metric)) as [[H1 H2]|[H1 H2]];
  destruct (Q.min_spec (Qmax next (Sim.min metric)) (Sim.max metric))
    as [[H3 H4]|[H3 H4]]; lra.
Qed.

(** A value already in the range is left alone. *)
Lemma clamp_id (metric : Sim.MetricDefinition) (next : Q) :
  Sim.in_range metric next ->
  Sim.clamp next (Sim.min metric) (Sim.max metric) == next.
Proof.
  unfold Sim.in_range, Sim.clamp. intros Hin.
  destruct (Q.max_spec next (Sim.min metric)) as [[H1 H2]|[H1 H2]];
  destruct (Q.min_spec (Qmax next (Sim.min metric)) (Sim.max metric))
    as [[H3 H4]|[H3 H4]]; lra.
Qed.

Lemma randomInRange_in_range (metric : Sim.MetricDefinition) (random : Q) :
  Sim.well_formed metric -> Sim.is_random random ->
  Sim.in_range metric
    (Sim.randomInRange (Sim.min metric) (Sim.max metric) random).
Proof.
  unfold Sim.well_formed, Sim.is_random, Sim.in_range, Sim.randomInRange.
  intros Hwf [H0 H1].
  set (lo := Sim.min metric) in *. set (hi := Sim.max metric) in *.
  split; nra.
Qed.

(** The two assignments of a tick keep value and target in the range. *)
Lemma advance_in_range (metric : Sim.MetricDefinition) (next retarget : Q)
    (state : Sim.MetricState) :
  Sim.well_formed metric -> Sim.is_random retarget ->
  Sim.in_range metric (Sim.target state) ->
  let state' := Sim.advance metric next retarget state in
  Sim.in_range metric (Sim.value state') /\
  Sim.in_range metric (Sim.target state').
Proof.
  intros Hwf Hr Ht. unfold Sim.advance.
  destruct (Qlt_le_dec _ _); simpl; split;
    auto using clamp_in_range, randomInRange_in_range.
Qed.

(** Close to the target, a tick draws a new one. *)
Lemma advance_retarget (metric : Sim.MetricDefinition) (next retarget : Q)
    (state : Sim.MetricState) :
  Qabs (Sim.clamp next (Sim.min metric) (Sim.max metric) - Sim.target state)
    < Sim.smoothing metric * 5 ->
  Sim.target (Sim.advance metric next retarget state)
  = Sim.randomInRange (Sim.min metric) (Sim.max metric) retarget.
Proof.
  intros Hnear. unfold Sim.advance.
  destruct (Qlt_le_dec _ _) as [_|Hfar]; [reflexivity|].
  exfalso. apply (Qlt_not_le _ _ Hnear Hfar).
Qed.

End Generator.

(** ** The states of the metrics *)

Section States.

Variable prefix : jsstring.
Variable stringify : Payload.t -> jsstring.

Local Open Scope Q_scope.

(** The entries with another key do not matter to a key. *)
Lemma fold_insert_other (k : jsstring)
    (kvs : list (jsstring * Sim.MetricState))
    (acc : gmap jsstring Sim.MetricState) :
  k ∉ (fst <$> kvs) ->
  fold_left (fun acc kv => <[fst kv := snd kv]> acc) kvs acc !! k = acc !! k.
Proof.
  revert acc. induction kvs as [|[k0 v0] kvs IH]; intros acc Hk; simpl.
  - reflexivity.
  - rewrite fmap_cons in Hk. apply not_elem_of_cons in Hk as [Hne Hk].
    rewrite IH by assumption. simpl in Hne.
    apply lookup_insert_ne. congruence.
Qed.

Lemma fold_insert_lookup (k : jsstring) (v : Sim.MetricState)
    (kvs : list (jsstring * Sim.MetricState))
    (acc : gmap jsstring Sim.MetricState) :
  NoDup (fst <$> kvs) -> (k, v) ∈ kvs ->
  fold_left (fun acc kv => <[fst kv := snd kv]> acc) kvs acc !! k = Some v.
Proof.
  revert acc. induction kvs as [|[k0 v0] kvs IH]; intros acc Hnd Hin; simpl.
  - apply elem_of_nil in Hin. contradiction.
  - rewrite fmap_cons in Hnd. apply NoDup_cons in Hnd as [Hk0 Hnd].
    apply elem_of_cons in Hin as [Heq|Hin].
    + injection Heq as -> ->.
      rewrite fold_insert_other by assumption. apply lookup_insert_eq.
    + apply IH; assumption.
Qed.

Lemma entries_keys (ms : list Sim.MetricDefinition) (randoms : nat -> Q) :
  fst <$> Sim.entries ms randoms = Sim.id <$> ms.
Proof.
  revert randoms. induction ms as [|metric ms IH]; intros randoms; simpl.
  - reflexivity.
  - rewrite IH. reflexivity.
Qed.

Lemma entries_elem (ms : list Sim.MetricDefinition) (randoms : nat -> Q)
    (metric : Sim.MetricDefinition) :
  metric ∈ ms ->
  exists i : nat,
    (Sim.id metric,
     {| Sim.value := Sim.min metric;
        Sim.target :=
          Sim.randomInRange (Sim.min metric) (Sim.max metric) (randoms i) |})
    ∈ Sim.entries ms randoms.
Proof.
  revert randoms. induction ms as [|m ms IH]; intros randoms Hin.
  - apply elem_of_nil in Hin. contradiction.
  - apply elem_of_cons in Hin as [->|Hin]; simpl.
    + exists 0%nat. apply elem_of_cons. left. reflexivity.
    + destruct (IH (fun i => randoms (S i)) Hin) as [i Hi].
      exists (S i). apply elem_of_cons. right. exact Hi.
Qed.

(** At startup the value of a metric is its minimum and its target a
    point drawn in its range. *)
Lemma metricStates_initial (ms : list Sim.MetricDefinition)
    (randoms : nat -> Q) (metric : Sim.MetricDefinition) :
  NoDup (Sim.id <$> ms) -> metric ∈ ms ->
  exists i : nat,
    Sim.metricStates ms randoms !! Sim.id metric
    = Some {| Sim.value := Sim.min metric;
              Sim.target :=
                Sim.randomInRange (Sim.min metric) (Sim.max metric)
                  (randoms i) |}.
Proof.
  intros Hnd Hin. destruct (entries_elem ms randoms metric Hin) as [i Hi].
  exists i. unfold Sim.metricStates, Sim.fromEntries.
  apply fold_insert_lookup; [|exact Hi].
  rewrite entries_keys. exact Hnd.
Qed.

(** Identifiers are keys: a table without repeated identifiers has one
    metric for each. *)
Lemma same_id (ms : list Sim.MetricDefinition) (m n : Sim.MetricDefinition) :
  NoDup (Sim.id <$> ms) -> m ∈ ms -> n ∈ ms -> Sim.id m = Sim.id n -> m = n.
Proof.
  induction ms as [|m0 ms IH]; intros Hnd Hm Hn Hid.
  - apply elem_of_nil in Hm. contradiction.
  - rewrite fmap_cons in Hnd. apply NoDup_cons in Hnd as [Hfresh Hnd].
    apply elem_of_cons in Hm as [->|Hm]; apply elem_of_cons in Hn as [->|Hn].
    + reflexivity.
    + exfalso. apply Hfresh. rewrite Hid. apply list_elem_of_fmap.
      exists n. auto.
    + exfalso. apply Hfresh. rewrite <- Hid. apply list_elem_of_fmap.
      exists m. auto.
    + apply IH; assumption.
Qed.

(** The states after [publishMetric]: the entry of the metric is replaced,
    whether or not [publish] throws. *)
Lemma publishMetric_states (metric : Sim.MetricDefinition)
    (random retarget : Q) (now : Z)
    (states : gmap jsstring Sim.MetricState) (w : World) :
  snd (fst (Sim.publishMetric prefix stringify metric random retarget now
              states w))
  = match states !! Sim.id metric, Sim.nextValue metric states random with
    | Some state, Some next =>
        <[Sim.id metric := Sim.advance metric next retarget state]> states
    | _, _ => states
    end.
Proof.
  unfold Sim.publishMetric.
  destruct (states !! Sim.id metric) as [state|]; [|reflexivity].
  destruct (Sim.nextValue metric states random) as [next|]; [|reflexivity].
  destruct (publish _ _ _ w) as [thrown w']. reflexivity.
Qed.

(** A tick of one metric leaves the state of every other identifier
    alone. *)
Lemma publishMetric_other (metric : Sim.MetricDefinition)
    (random retarget : Q) (now : Z)
    (states : gmap jsstring Sim.MetricState) (w : World) (k : jsstring) :
  Sim.id metric <> k ->
  snd (fst (Sim.publishMetric prefix stringify metric random retarget now
              states w)) !! k
  = states !! k.
Proof.
  intros Hne. rewrite publishMetric_states.
  destruct (states !! Sim.id metric) as [state|]; [|reflexivity].
  destruct (Sim.nextValue metric states random) as [next|]; [|reflexivity].
  apply lookup_insert_ne. assumption.
Qed.

Lemma fire_states (t : Sim.Tick)
    (sw : gmap jsstring Sim.MetricState * World) :
  fst (Sim.fire prefix stringify t sw)
  = snd (fst (Sim.publishMetric prefix stringify (Sim.tick_metric t)
                (Sim.tick_random t) (Sim.tick_retarget t) (Sim.tick_now t)
                (fst sw) (snd sw))).
Proof.
  unfold Sim.fire.
  destruct (Sim.publishMetric prefix stringify _ _ _ _ _ _)
    as [[thrown states'] w'].
  reflexivity.
Qed.

Lemma bounded_initial (ms : list Sim.MetricDefinition) (randoms : nat -> Q) :
  NoDup (Sim.id <$> ms) -> Forall Sim.well_formed ms ->
  (forall i, Sim.is_random (randoms i)) ->
  Sim.bounded ms (Sim.metricStates ms randoms).
Proof.
  intros Hnd Hwf Hr metric Hin.
  destruct (metricStates_initial ms randoms metric Hnd Hin) as [i Hi].
  rewrite Forall_forall in Hwf. pose proof (Hwf metric Hin) as Hm.
  eexists. split; [exact Hi|]. simpl. split.
  - split; [apply Qle_refl | exact Hm].
  - apply randomInRange_in_range; [exact Hm | apply Hr].
Qed.

Lemma bounded_fire (ms : list Sim.MetricDefinition) (t : Sim.Tick)
    (sw : gmap jsstring Sim.MetricState * World) :
  NoDup (Sim.id <$> ms) -> Forall Sim.well_formed ms ->
  Sim.tick_metric t ∈ ms -> Sim.is_random (Sim.tick_retarget t) ->
  Sim.bounded ms (fst sw) ->
  Sim.bounded ms (fst (Sim.fire prefix stringify t sw)).
Proof.
  intros Hnd Hwf Hin Hr Hb metric Hm.
  rewrite fire_states, publishMetric_states.
  destruct (Hb metric Hm) as (state & Hstate & Hv & Ht).
  destruct (fst sw !! Sim.id (Sim.tick_metric t)) as [st|] eqn:Hst; [|eauto].
  destruct (Sim.nextValue _ _ _) as [next|]; [|eauto].
  destruct (decide (Sim.id (Sim.tick_metric t) = Sim.id metric)) as [Hid|Hne].
  - assert (Sim.tick_metric t = metric) as Heq
      by (apply (same_id ms); assumption).
    rewrite Heq in *. rewrite lookup_insert_eq. eexists. split; [reflexivity|].
    rewrite Forall_forall in Hwf.
    apply advance_in_range; [apply Hwf; assumption | assumption |].
    congruence.
  - rewrite lookup_insert_ne by assumption. eauto.
Qed.

Lemma bounded_fire_all (ms : list Sim.MetricDefinition) (ticks : list Sim.Tick)
    (sw : gmap jsstring Sim.MetricState * World) :
  NoDup (Sim.id <$> ms) -> Forall Sim.well_formed ms ->
  Forall (fun t => Sim.tick_metric t ∈ ms /\
                   Sim.is_random (Sim.tick_retarget t)) ticks ->
  Sim.bounded ms (fst sw) ->
  Sim.bounded ms (fst (Sim.fire_all prefix stringify ticks sw)).
Proof.
  intros Hnd Hwf Hticks. revert sw.
  induction Hticks as [|t ticks [Hin Hr] _ IH]; intros sw Hb; simpl.
  - exact Hb.
  - apply IH. apply bounded_fire; assumption.
Qed.

End States.

(** The table of the simulator: no identifier twice, no empty range. *)
Lemma metrics_NoDup : NoDup (Sim.id <$> Sim.metrics).
Proof. apply (bool_decide_unpack _). vm_compute. reflexivity. Qed.

Lemma metrics_well_formed : Forall Sim.well_formed Sim.metrics.
Proof.
  unfold Sim.metrics.
  repeat (constructor; [unfold Sim.well_formed; simpl; lra|]).
  constructor.
Qed.

(** The simulator's own table: whatever the timers do, every value and
    every target stays in its range. *)
Lemma metrics_bounded (prefix : jsstring) (stringify : Payload.t -> jsstring)
    (randoms : nat -> Q) (ticks : list Sim.Tick) (w : World) :
  (forall i, Sim.is_random (randoms i)) ->
  Forall (fun t => Sim.tick_metric t ∈ Sim.metrics /\
                   Sim.is_random (Sim.tick_retarget t)) ticks ->
  Sim.bounded Sim.metrics
    (fst (Sim.fire_all prefix stringify ticks
            (Sim.metricStates Sim.metrics randoms, w))).
Proof.
  intros Hr Hticks.
  apply bounded_fire_all;
    [apply metrics_NoDup | apply metrics_well_formed | assumption |].
  apply bounded_initial;
    [apply metrics_NoDup | apply metrics_well_formed | assumption].
Qed.

Lemma coolantTemp_in_table : Sim.metrics !! 2%nat = Some Sim.coolantTemp.
Proof. reflexivity. Qed.

Lemma oilTemp_in_table : Sim.metrics !! 3%nat = Some Sim.oilTemp.
Proof. reflexivity. Qed.

(** C8. Take a table of metrics with distinct identifiers and ranges that
    are not empty, the states made at startup (value at the minimum,
    target drawn in the range), and any sequence of ticks of metrics of
    the table. Afterwards every metric has its value within its range, and
    its target as well. And whenever a tick finds the clamped value closer
    to the target than five times the smoothing, the target it stores is
    the fresh draw, which lies in the range. *)
Theorem clamping_invariant (prefix : jsstring)
    (stringify : Payload.t -> jsstring)
    (ms : list Sim.MetricDefinition) (randoms : nat -> Q)
    (ticks : list Sim.Tick) (w : World) (metric : Sim.MetricDefinition) :
  NoDup (Sim.id <$> ms) -> Forall Sim.well_formed ms ->
  (forall i, Sim.is_random (randoms i)) ->
  Forall (fun t => Sim.tick_metric t ∈ ms /\
                   Sim.is_random (Sim.tick_retarget t)) ticks ->
  metric ∈ ms ->
  (exists state,
     fst (Sim.fire_all prefix stringify ticks (Sim.metricStates ms randoms, w))
       !! Sim.id metric = Some state /\
     Sim.in_range metric (Sim.value state) /\
     Sim.in_range metric (Sim.target state)) /\
  (forall (next retarget : Q) (state : Sim.MetricState),
     Sim.is_random retarget ->
     (Qabs (Sim.clamp next (Sim.min metric) (Sim.max metric)
            - Sim.target state) < Sim.smoothing metric * 5)%Q ->
     Sim.target (Sim.advance metric next retarget state)
       = Sim.randomInRange (Sim.min metric) (Sim.max metric) retarget /\
     Sim.in_range metric (Sim.target (Sim.advance metric next retarget state))).
Proof.
  intros Hnd Hwf Hr Hticks Hin. split.
  - apply (bounded_fire_all prefix stringify ms ticks); try assumption.
    apply bounded_initial; assumption.
  - intros next retarget state Hre Hnear.
    rewrite (advance_retarget metric next retarget state Hnear).
    split; [reflexivity|].
    rewrite Forall_forall in Hwf.
    apply randomInRange_in_range; [apply Hwf|]; assumption.
Qed.

Lemma clamping_invariant_witness :
  exists state,
    fst (Sim.fire_all (lit "hmi/metrics") (fun _ => [])
           [ {| Sim.tick_metric := Sim.coolantTemp; Sim.tick_random := 0.25;
                Sim.tick_retarget := 0.75; Sim.tick_now := 0 |};
             {| Sim.tick_metric := Sim.oilTemp; Sim.tick_random := 0.5;
                Sim.tick_retarget := 0.125; Sim.tick_now := 200 |} ]
           (Sim.metricStates Sim.metrics (fun _ => 0.5%Q), connected))
      !! Sim.id Sim.coolantTemp = Some state /\
    Sim.in_range Sim.coolantTemp (Sim.value state) /\
    Sim.in_range Sim.coolantTemp (Sim.target state).
Proof.
  apply (clamping_invariant (lit "hmi/metrics") (fun _ => []) Sim.metrics).
  - apply (bool_decide_unpack _). vm_compute. reflexivity.
  - unfold Sim.metrics.
    repeat (constructor; [unfold Sim.well_formed; simpl; lra|]).
    constructor.
  - intros i. unfold Sim.is_random. lra.
  - repeat constructor; simpl;
      try (unfold Sim.is_random; lra);
      try apply (list_elem_of_lookup_2 _ 2%nat), coolantTemp_in_table;
      try apply (list_elem_of_lookup_2 _ 3%nat), oilTemp_in_table.
  - apply (list_elem_of_lookup_2 _ 2%nat), coolantTemp_in_table.
Defined.

(** C9. For a metric without an override generator, the raw next value of
    a tick is current + (target - current) * smoothing + noise, with noise
    = u * smoothing * (max - min) * 0.01 and u the draw of [Math.random()]
    minus 0.5; current and target are those of the metric's state. The
    tick stores the clamped raw value. *)
Theorem default_rule (prefix : jsstring) (stringify : Payload.t -> jsstring)
    (metric : Sim.MetricDefinition) (states : gmap jsstring Sim.MetricState)
    (state : Sim.MetricState) (random retarget : Q) (now : Z) (w : World) :
  Sim.generator metric = None ->
  states !! Sim.id metric = Some state ->
  Sim.is_random random ->
  let current := Sim.value state in
  let u := (random - 0.5)%Q in
  let noise :=
    (u * Sim.smoothing metric * (Sim.max metric - Sim.min metric) * 0.01)%Q in
  let next :=
    (current + (Sim.target state - current) * Sim.smoothing metric + noise)%Q in
  (- 0.5 <= u)%Q /\ (u < 0.5)%Q /\
  Sim.nextValue metric states random = Some next /\
  exists state',
    snd (fst (Sim.publishMetric prefix stringify metric random retarget now
                states w)) !! Sim.id metric = Some state' /\
    Sim.value state' = Sim.clamp next (Sim.min metric) (Sim.max metric).
Proof.
  intros Hgen Hstate [H0 H1] current u noise next.
  assert (Sim.nextValue metric states random = Some next) as Hnext.
  { unfold Sim.nextValue, Sim.defaultGenerator. rewrite Hstate, Hgen.
    reflexivity. }
  split; [unfold u; lra|]. split; [unfold u; lra|]. split; [exact Hnext|].
  exists (Sim.advance metric next retarget state).
  rewrite publishMetric_states, Hstate, Hnext, lookup_insert_eq.
  split; [reflexivity|].
  unfold Sim.advance. destruct (Qlt_le_dec _ _); reflexivity.
Qed.

Lemma default_rule_witness :
  Sim.nextValue Sim.coolantTemp
    {[ Sim.id Sim.coolantTemp := {| Sim.value := 90; Sim.target := 100 |} ]}
    0.75%Q
  = Some (90 + (100 - 90) * 0.05 + (0.75 - 0.5) * 0.05 * (110 - 70) * 0.01)%Q.
Proof.
  apply (default_rule (lit "hmi/metrics") (fun _ => []) Sim.coolantTemp
           {[ Sim.id Sim.coolantTemp :=
                {| Sim.value := 90; Sim.target := 100 |} ]}
           {| Sim.value := 90; Sim.target := 100 |} 0.75%Q 0.5%Q 0%Z connected).
  - reflexivity.
  - apply lookup_singleton_eq.
  - unfold Sim.is_random. lra.
Defined.

(** C10. A tick of a metric leaves the state under every other identifier
    as it was. In a table with distinct identifiers two distinct metrics
    have distinct identifiers, so that a tick of one leaves the state of
    the other, value and target, unchanged. *)
Theorem tick_frame (prefix : jsstring) (stringify : Payload.t -> jsstring)
    (ms : list Sim.MetricDefinition) (m n : Sim.MetricDefinition)
    (random retarget : Q) (now : Z)
    (states : gmap jsstring Sim.MetricState) (w : World) :
  NoDup (Sim.id <$> ms) -> m ∈ ms -> n ∈ ms -> m <> n ->
  let states' :=
    snd (fst (Sim.publishMetric prefix stringify m random retarget now
                states w)) in
  Sim.id m <> Sim.id n /\
  states' !! Sim.id n = states !! Sim.id n /\
  (forall k : jsstring, Sim.id m <> k -> states' !! k = states !! k).
Proof.
  intros Hnd Hm Hn Hne states'.
  assert (Sim.id m <> Sim.id n) as Hid.
  { intros Hid. apply Hne. apply (same_id ms); assumption. }
  split; [exact Hid|]. split.
  - apply publishMetric_other. exact Hid.
  - intros k Hk. apply publishMetric_other. exact Hk.
Qed.

Lemma tick_frame_witness :
  snd (fst (Sim.publishMetric (lit "hmi/metrics") (fun _ => [])
              Sim.coolantTemp 0.25 0.75 0
              (Sim.metricStates Sim.metrics (fun _ => 0.5%Q)) connected))
    !! Sim.id Sim.oilTemp
  = Sim.metricStates Sim.metrics (fun _ => 0.5%Q) !! Sim.id Sim.oilTemp.
Proof.
  destruct (tick_frame (lit "hmi/metrics") (fun _ => []) Sim.metrics
              Sim.coolantTemp Sim.oilTemp 0.25 0.75 0
              (Sim.metricStates Sim.metrics (fun _ => 0.5%Q)) connected)
    as (_ & H & _).
  - apply (bool_decide_unpack _). vm_compute. reflexivity.
  - apply (list_elem_of_lookup_2 _ 2%nat), coolantTemp_in_table.
  - apply (list_elem_of_lookup_2 _ 3%nat), oilTemp_in_table.
  - intros H. discriminate H.
  - exact H.
Defined.

(** ** Worked examples *)

Section Examples.

(** The connection request of client "sim-1": header 0x10, remaining
    length 17, "MQTT", level 4, clean session, keep-alive 60, identifier. *)
Example connect_packet :
  buildConnectPacket (this fresh)
  = [0x10; 17; 0; 4; 77; 81; 84; 84; 0x04; 0x02; 0; 60;
     0; 5; 115; 105; 109; 45; 49]%Z.
Proof. vm_compute. reflexivity. Qed.

(** The socket of a connected publisher has been handed that request. *)
Example connected_written :
  written <$> sockets connected !! 0%nat
  = Some [buildConnectPacket (this fresh)].
Proof. vm_compute. reflexivity. Qed.

(** A retained publish at quality of service 0: header 0x31, remaining
    length 33 = 25 + 8, the topic field, the payload. *)
Example publish_coolantTemp :
  let payload := utf8 (lit "{'id':1}") in
  written <$>
    sockets (snd (publish (lit "hmi/metrics/coolantTemp") payload
                    {| retain := Some true; qos := Some QoS0 |} connected))
      !! 0%nat
  = Some [buildConnectPacket (this fresh);
          [0x31; 33]%Z ++ [0; 23]%Z ++ lit "hmi/metrics/coolantTemp"
            ++ payload].
Proof. vm_compute. reflexivity. Qed.

(** Quality of service 2 sets bits 1 and 2 of the header to 2; the topic
    field still follows the remaining length at once. *)
Example publish_qos2 :
  written <$>
    sockets (snd (publish (lit "t") [7]%Z
                    {| retain := None; qos := Some QoS2 |} connected))
      !! 0%nat
  = Some [buildConnectPacket (this fresh); [0x34; 4; 0; 1; 116; 7]%Z].
Proof. vm_compute. reflexivity. Qed.

(** Chunks of fewer than four bytes leave a connecting publisher as it is. *)
Lemma short_chunks_ignored (chunks : list Buffer) :
  Forall (fun chunk => (length chunk < 4)%nat) chunks ->
  run (Emit 0 <$> (EvData <$> chunks)) connecting = Some connecting.
Proof.
  induction 1 as [|chunk chunks Hshort _ IH]; [reflexivity|].
  rewrite !fmap_cons. cbn [run enabled exec].
  change (live 0 connecting) with true. cbv iota.
  unfold emit. change (sockets connecting !! 0%nat) with
    (Some {| port := 1883; host := lit "broker"; executor := 0;
             once_connect := false; once_error := true;
             written := [buildConnectPacket (this fresh)];
             ended := false; closed := false |}).
  cbv iota. rewrite on_data_ignored by (right; assumption). exact IH.
Qed.

(** A raw value above the range is cut to the maximum; near the target a
    new target is drawn. *)
Example tick_clamps :
  (Sim.value (Sim.advance Sim.coolantTemp 150.5 0.25
                {| Sim.value := 90; Sim.target := 100 |}) == 110)%Q.
Proof. vm_compute. reflexivity. Qed.

Example tick_retargets :
  (Sim.target (Sim.advance Sim.coolantTemp 99.9 0.25
                 {| Sim.value := 90; Sim.target := 100 |}) == 80)%Q.
Proof. vm_compute. reflexivity. Qed.

(** A tick before the handshake is done moves the state and then throws. *)
Example tick_not_connected :
  fst (fst (Sim.publishMetric (lit "hmi/metrics") (fun _ => lit "{}")
              Sim.coolantTemp 0.5 0.5 0
              (Sim.metricStates Sim.metrics (fun _ => 0.5%Q)) connecting))
  = Some (Error "MQTT publisher not connected").
Proof. vm_compute. reflexivity. Qed.

End Examples.

(** * Further properties of the code *)

(** ** The codec *)

Section CodecMore.
Local Open Scope Z_scope.

(** A length of [128 ^ k] or more takes more than [k] bytes. *)
Lemma encodeRemainingLength_longer (len : Z) :
  0 <= len ->
  forall k : nat, 128 ^ Z.of_nat (S k) <= len ->
    (S k < length (encodeRemainingLength len))%nat.
Proof.
  intros Hlen. pattern len. apply rounds_ind; [| |assumption]; clear len Hlen.
  - intros len Hlen k Hk. exfalso.
    assert (128 ^ 1 <= 128 ^ Z.of_nat (S k))
      by (apply Z.pow_le_mono_r; lia).
    lia.
  - intros len Hlen IH k Hk. rewrite encodeRemainingLength_large by assumption.
    cbn [length]. destruct k as [|k].
    + pose proof (encodeRemainingLength_nonempty (len / 128)). lia.
    + apply -> Nat.succ_lt_mono. apply IH.
      rewrite (Nat2Z.inj_succ (S k)), Z.pow_succ_r in Hk by lia.
      apply Z.div_le_lower_bound; lia.
Qed.

End CodecMore.

(** X1. The encoding is as short as the scheme allows: it fits in [k]
    bytes exactly when the length is below [128 ^ k]. Nothing bounds the
    input: a length above 268,435,455 is encoded all the same, in five
    bytes or more. *)
Theorem remaining_length_size (L : Z) (k : nat) :
  (0 <= L)%Z ->
  ((length (encodeRemainingLength L) <= S k)%nat
   <-> (L < 128 ^ Z.of_nat (S k))%Z) /\
  ((268435455 < L)%Z -> (5 <= length (encodeRemainingLength L))%nat).
Proof.
  intros HL. split; [split|].
  - intros Hlen.
    destruct (Z_lt_le_dec L (128 ^ Z.of_nat (S k))) as [|Hge]; [assumption|].
    pose proof (encodeRemainingLength_longer L HL k Hge). lia.
  - apply encodeRemainingLength_length. assumption.
  - intros Hbig.
    pose proof (encodeRemainingLength_longer L HL 3 ltac:(simpl; lia)). lia.
Qed.

Lemma remaining_length_size_witness :
  (length (encodeRemainingLength 16384) <= 3)%nat /\
  (5 <= length (encodeRemainingLength 268435456))%nat.
Proof.
  split.
  - apply (remaining_length_size 16384 2); simpl; lia.
  - apply (remaining_length_size 268435456 0); lia.
Defined.

(** X2. An encoding tells where it ends: when two encodings, each followed
    by any bytes, give the same byte sequence, the lengths are the same and
    so are the bytes that follow. In particular different lengths never
    share an encoding. *)
Theorem remaining_length_self_delimiting (L1 L2 : Z) (rest1 rest2 : list Z) :
  (0 <= L1)%Z -> (0 <= L2)%Z ->
  encodeRemainingLength L1 ++ rest1 = encodeRemainingLength L2 ++ rest2 ->
  L1 = L2 /\ rest1 = rest2.
Proof.
  intros H1 H2 Heq.
  pose proof (decode_encode L1 rest1 H1) as Hd1.
  pose proof (decode_encode L2 rest2 H2) as Hd2.
  rewrite Heq, Hd2 in Hd1. injection Hd1 as -> ->. auto.
Qed.

Lemma remaining_length_self_delimiting_witness :
  300%Z = 300%Z /\ [1%Z] = [1%Z].
Proof.
  apply (remaining_length_self_delimiting 300 300 [1%Z] [1%Z]);
    [lia | lia | reflexivity].
Defined.

(** X3. The connection request of any client: the byte 0x10, the remaining
    length, the ten bytes of the variable header ("MQTT", level 4, clean
    session, keep-alive 60) and the client identifier as a string field.
    Its remaining length decodes to the number of bytes that follow it. *)
Theorem connect_packet_layout (self : SimpleMqttPublisher) :
  let field := encodeUtf8String (clientId self) in
  let n := (10 + Z.of_nat (length field))%Z in
  buildConnectPacket self
    = 0x10%Z :: encodeRemainingLength n ++ connect_header ++ field /\
  decodeRemainingLength (tail (buildConnectPacket self))
    = Some (n, connect_header ++ field) /\
  n = Z.of_nat (length (connect_header ++ field)).
Proof.
  intros field n.
  assert (buildConnectPacket self
          = 0x10%Z :: encodeRemainingLength n ++ connect_header ++ field)
    as Hlayout.
  { unfold buildConnectPacket. cbv zeta.
    assert (Buffer_concat
              [encodeUtf8String (lit "MQTT"); Buffer_from [0x04%Z];
               Buffer_from [0x02%Z];
               Buffer_from [bitand (shr KEEP_ALIVE_SECONDS 8) 0xff;
                            bitand KEEP_ALIVE_SECONDS 0xff]]
            = connect_header) as -> by (vm_compute; reflexivity).
    fold field.
    assert (Buffer_concat [field] = field) as ->
      by (unfold Buffer_concat; cbn [List.concat]; apply app_nil_r).
    change (Z.of_nat (length connect_header)) with 10%Z. fold n.
    rewrite Buffer_from_bytes.
    - unfold Buffer_concat. cbn [List.concat]. rewrite app_nil_r. reflexivity.
    - constructor; [lia|]. apply encodeRemainingLength_bytes. unfold n. lia. }
  split; [exact Hlayout|]. split.
  - rewrite Hlayout. cbn [tail]. apply decode_encode. unfold n. lia.
  - unfold n. rewrite length_app. change (length connect_header) with 10%nat.
    lia.
Qed.

(** ** The publisher's sockets *)

Section Sockets.

Lemma socket_write_lookup (c s : nat) (buf : Buffer) (w : World) :
  sockets (socket_write c buf w) !! s
  = (if decide (c = s) then push buf else fun sk => sk) <$> sockets w !! s.
Proof.
  unfold socket_write.
  destruct (sockets w !! c) as [sk|] eqn:Hc; simpl.
  - destruct (decide (c = s)) as [<-|Hne].
    + rewrite list_lookup_insert_eq by (eapply lookup_lt_Some, Hc).
      rewrite Hc. reflexivity.
    + rewrite list_lookup_insert_ne by assumption.
      destruct (sockets w !! s); reflexivity.
  - destruct (decide (c = s)) as [<-|Hne].
    + rewrite Hc. reflexivity.
    + destruct (sockets w !! s); reflexivity.
Qed.


Lemma socket_end_promises (s : nat) (w : World) :
  promises (socket_end s w) = promises w.
Proof. unfold socket_end. destruct (sockets w !! s); reflexivity. Qed.

Lemma written_to_write (c s : nat) (buf : Buffer) (w : World) :
  written_to s (socket_write c buf w)
  = (if decide (c = s) then fun bufs => bufs ++ [buf] else fun bufs => bufs)
      <$> written_to s w.
Proof.
  unfold written_to. rewrite socket_write_lookup.
  destruct (sockets w !! s) as [sk|]; [|reflexivity].
  destruct (decide (c = s)); reflexivity.
Qed.


(** What [publish] does in a ready world, with the frame in one piece. *)
Lemma publish_frame_ready (w : World) (s : nat) (topic : jsstring)
    (payload : Buffer) (options : PublishOptions) :
  socket (this w) = Some s -> isReady (this w) = true ->
  publish topic payload options w
  = (None, socket_write s (frame topic payload options) w).
Proof. intros Hs Hr. apply publish_ready; assumption. Qed.

(** After its connect event a socket has no connect handler left. *)
Lemma connect_event_disarms (w : World) (s : nat) (sk : Socket) :
  sockets (emit s EvConnect w) !! s = Some sk -> once_connect sk = false.
Proof.
  unfold emit. destruct (sockets w !! s) as [sk0|] eqn:Hs.
  2: { rewrite Hs. discriminate. }
  unfold on_connect. destruct (once_connect sk0) eqn:Honce.
  2: { rewrite Hs. intros H. injection H as <-. exact Honce. }
  set (w1 := set_sockets (<[s := disarm_connect sk0]> (sockets w)) w).
  assert (sockets w1 !! s = Some (disarm_connect sk0)) as Hs1.
  { unfold w1. simpl. apply list_lookup_insert_eq.
    eapply lookup_lt_Some, Hs. }
  destruct (socket (this w1)) as [cur|].
  - rewrite socket_write_lookup, Hs1. simpl.
    destruct (decide (cur = s)); intros H; injection H as <-; reflexivity.
  - rewrite Hs1. intros H. injection H as <-. reflexivity.
Qed.

Lemma connect_event_disarmed (w : World) (s : nat) :
  (forall sk, sockets w !! s = Some sk -> once_connect sk = false) ->
  emit s EvConnect w = w.
Proof.
  intros H. unfold emit. destruct (sockets w !! s) as [sk|]; [|reflexivity].
  unfold on_connect. rewrite (H sk eq_refl). reflexivity.
Qed.

End Sockets.


(** X5. The connection request is written once. After the [connect] that
    opens a socket, the socket's connect event hands it the connection
    request and nothing else; and on any socket, in any world, a second
    connect event does nothing. *)
Theorem connect_event_once (w0 : World) :
  connectPromise (this w0) = None ->
  let w1 := snd (connect w0) in
  let s := length (sockets w0) in
  written_to s (emit s EvConnect w1) = Some [buildConnectPacket (this w1)] /\
  (forall (w : World) (s' : nat),
     emit s' EvConnect (emit s' EvConnect w) = emit s' EvConnect w).
Proof.
  intros Hcp w1 s. split.
  - unfold w1, s, connect. rewrite Hcp. simpl.
    unfold emit. simpl. rewrite lookup_app_r by lia.
    rewrite Nat.sub_diag. simpl. unfold on_connect. simpl.
    unfold written_to. rewrite socket_write_lookup. simpl.
    rewrite list_lookup_insert_eq by (rewrite length_app; simpl; lia).
    destruct (decide (length (sockets w0) = length (sockets w0)));
      [reflexivity|contradiction].
  - intros w s'. apply connect_event_disarmed.
    intros sk. apply connect_event_disarms.
Qed.

Lemma connect_event_once_witness :
  written_to 0 connecting = Some [buildConnectPacket (this fresh)] /\
  emit 0 EvConnect connecting = connecting.
Proof.
  destruct (connect_event_once fresh) as [Hw Honce]; [reflexivity|].
  split; [exact Hw|]. apply (Honce (snd (connect fresh)) 0%nat).
Defined.

(** X6. When [publish] returns without throwing in a reachable world, the
    frame went to the current socket, which has not closed; that socket
    got this one buffer more, and no other socket, no promise and no field
    of the publisher changed. *)
Theorem publish_writes_open_socket (w : World) (topic : jsstring)
    (payload : Buffer) (options : PublishOptions) :
  reachable w ->
  fst (publish topic payload options w) = None ->
  let w' := snd (publish topic payload options w) in
  exists s : nat,
    socket (this w) = Some s /\ live s w = true /\
    written_to s w'
      = (fun bufs => bufs ++ [frame topic payload options]) <$> written_to s w /\
    (forall s', s' <> s -> written_to s' w' = written_to s' w) /\
    this w' = this w /\ promises w' = promises w.
Proof.
  intros Hreach Hok w'. apply reachable_consistent in Hreach.
  assert (isReady (this w) = true) as Hr.
  { unfold publish in Hok. destruct (socket (this w)); [|discriminate].
    destruct (isReady (this w)); [reflexivity|discriminate]. }
  destruct (ready_socket w Hreach Hr) as (s & sk & Hsock & Hs & Hopen & _).
  exists s. split; [exact Hsock|]. split.
  { unfold live. rewrite Hs, Hopen. reflexivity. }
  unfold w'. rewrite (publish_frame_ready w s) by assumption. simpl.
  split; [|split; [|split]].
  - rewrite written_to_write.
    destruct (decide (s = s)); [reflexivity|contradiction].
  - intros s' Hne. rewrite written_to_write.
    destruct (decide (s = s')); [congruence|].
    destruct (written_to s' w); reflexivity.
  - apply socket_write_this.
  - apply socket_write_promises.
Qed.

Lemma publish_writes_open_socket_witness :
  written_to 0
    (snd (publish (lit "t") [7%Z] {| retain := None; qos := None |} connected))
  = Some [buildConnectPacket (this fresh);
          frame (lit "t") [7%Z] {| retain := None; qos := None |}].
Proof.
  destruct (publish_writes_open_socket connected (lit "t") [7%Z]
              {| retain := None; qos := None |})
    as (s & Hs & _ & Hw & _).
  - from_fresh (handshake [0x20; 0x02; 0x00; 0x00]%Z).
  - reflexivity.
  - injection Hs as <-. rewrite Hw. reflexivity.
Defined.

Section PublishMany.

Lemma publish_run (msgs : list (jsstring * Buffer * PublishOptions))
    (s : nat) (w : World) :
  socket (this w) = Some s -> isReady (this w) = true ->
  exists w',
    run ((fun m => CallPublish (fst (fst m)) (snd (fst m)) (snd m)) <$> msgs) w
      = Some w' /\
    this w' = this w /\
    written_to s w'
      = (fun bufs =>
           bufs ++ ((fun m => frame (fst (fst m)) (snd (fst m)) (snd m)) <$> msgs))
          <$> written_to s w.
Proof.
  revert w. induction msgs as [|[[topic payload] options] msgs IH];
    intros w Hs Hr.
  - exists w. split; [reflexivity|]. split; [reflexivity|].
    destruct (written_to s w) as [bufs|]; simpl; [|reflexivity].
    rewrite app_nil_r. reflexivity.
  - rewrite fmap_cons. cbn [run enabled exec fst snd].
    rewrite (publish_frame_ready w s) by assumption. cbn [snd].
    set (w1 := socket_write s (frame topic payload options) w).
    assert (this w1 = this w) as Hthis by apply socket_write_this.
    destruct (IH w1) as (w' & Hrun & Hthis' & Hw');
      [rewrite Hthis; assumption | rewrite Hthis; assumption |].
    exists w'. split; [exact Hrun|]. split; [congruence|].
    rewrite Hw'. unfold w1. rewrite written_to_write.
    destruct (decide (s = s)); [|contradiction].
    destruct (written_to s w) as [bufs|]; simpl; [|reflexivity].
    rewrite <- app_assoc. reflexivity.
Qed.

End PublishMany.

(** X7. A ready publisher takes any number of publishes: none throws, the
    publisher stays ready, and the socket has been handed the frames one
    after the other, in the order of the calls. *)
Theorem publish_in_order (w : World)
    (msgs : list (jsstring * Buffer * PublishOptions)) :
  reachable w -> Ready w ->
  exists (s : nat) (w' : World),
    socket (this w) = Some s /\
    run ((fun m => CallPublish (fst (fst m)) (snd (fst m)) (snd m)) <$> msgs) w
      = Some w' /\
    Ready w' /\
    written_to s w'
      = (fun bufs =>
           bufs ++ ((fun m => frame (fst (fst m)) (snd (fst m)) (snd m)) <$> msgs))
          <$> written_to s w.
Proof.
  intros Hreach Hr. apply reachable_consistent in Hreach.
  destruct (ready_socket w Hreach Hr) as (s & sk & Hsock & _).
  destruct (publish_run msgs s w Hsock Hr) as (w' & Hrun & Hthis & Hw').
  exists s, w'. split; [exact Hsock|]. split; [exact Hrun|].
  split; [|exact Hw']. unfold Ready. rewrite Hthis. exact Hr.
Qed.

Lemma publish_in_order_witness :
  exists w' : World,
    run [CallPublish (lit "a") [1%Z] {| retain := Some true; qos := None |};
         CallPublish (lit "b") [2%Z] {| retain := None; qos := None |}]
      connected = Some w' /\
    written_to 0 w'
    = Some [buildConnectPacket (this fresh);
            frame (lit "a") [1%Z] {| retain := Some true; qos := None |};
            frame (lit "b") [2%Z] {| retain := None; qos := None |}].
Proof.
  destruct (publish_in_order connected
              [(lit "a", [1%Z], {| retain := Some true; qos := None |});
               (lit "b", [2%Z], {| retain := None; qos := None |})])
    as (s & w' & Hs & Hrun & _ & Hw').
  - from_fresh (handshake [0x20; 0x02; 0x00; 0x00]%Z).
  - reflexivity.
  - exists w'. split; [exact Hrun|].
    injection Hs as <-. rewrite Hw'. reflexivity.
Defined.

(** ** Promises and sockets over time *)

Section Stability.

Lemma settle_keeps (q p : nat) (st st' : PromiseState) (w : World) :
  promises w !! p = Some st -> st <> Pending ->
  promises (settle q st' w) !! p = Some st.
Proof.
  intros Hp Hst. unfold settle.
  destruct (promises w !! q) as [[]|] eqn:Hq; try assumption.
  simpl. destruct (decide (q = p)) as [->|Hne].
  - congruence.
  - rewrite list_lookup_insert_ne by assumption. assumption.
Qed.

Lemma exec_keeps (a : Action) (p : nat) (st : PromiseState) (w : World) :
  promises w !! p = Some st -> st <> Pending ->
  promises (exec a w) !! p = Some st.
Proof.
  intros Hp Hst. destruct a as [|topic payload options| |s ev]; simpl.
  - unfold connect. destruct (connectPromise (this w)); [assumption|].
    simpl. rewrite lookup_app_l by (eapply lookup_lt_Some, Hp). assumption.
  - unfold publish. destruct (socket (this w)); [|assumption].
    destruct (isReady (this w)); [|assumption].
    simpl. rewrite socket_write_promises. assumption.
  - unfold end_. destruct (socket (this w)); [|assumption].
    rewrite socket_end_promises. assumption.
  - unfold emit. destruct (sockets w !! s) as [sk|]; [|assumption].
    destruct ev as [|code|chunk|].
    + unfold on_connect. destruct (once_connect sk); [|assumption].
      simpl. destruct (socket (this w)); [|assumption].
      rewrite socket_write_promises. assumption.
    + unfold on_error. destruct (once_error sk); [|assumption].
      apply settle_keeps; assumption.
    + unfold on_data.
      destruct (negb (isReady (this w)) && (4 <=? Z.of_nat (length chunk)))%Z;
        [|assumption].
      destruct (byte_is chunk 0 32 && byte_ge chunk 1 2 && byte_is chunk 3 0);
        apply settle_keeps; assumption.
    + assumption.
Qed.

End Stability.

(** X8. A promise settles once: when it is fulfilled or rejected, no
    method call and no socket event changes it again, so that the outcome
    a caller of [connect] has seen stays the outcome. *)
Theorem promise_settles_once (acts : list Action) (w w' : World) (p : nat)
    (st : PromiseState) :
  run acts w = Some w' ->
  promises w !! p = Some st -> st <> Pending ->
  promises w' !! p = Some st.
Proof.
  revert w. induction acts as [|a acts IH]; intros w Hrun Hp Hst;
    simpl in Hrun.
  - injection Hrun as <-. assumption.
  - destruct (enabled a w); [|discriminate].
    apply (IH (exec a w)); [assumption| |assumption].
    apply exec_keeps; assumption.
Qed.

Lemma promise_settles_once_witness :
  promises
    (exec (Emit 0 (EvData [0x20; 0x02; 0x00; 0x00]%Z))
       (exec (Emit 0 (EvError 104)) refused)) !! 0%nat
  = Some (Rejected (Error "MQTT broker rejected connection")).
Proof.
  apply (promise_settles_once
           [Emit 0 (EvError 104); Emit 0 (EvData [0x20; 0x02; 0x00; 0x00]%Z)]
           refused).
  - reflexivity.
  - reflexivity.
  - discriminate.
Defined.

(** X9. A publisher never has two open sockets: in a reachable world a
    socket that has not closed is the current socket, and any two such
    sockets are one. *)
Theorem one_open_socket (w : World) (s1 s2 : nat) :
  reachable w -> live s1 w = true -> live s2 w = true ->
  s1 = s2 /\ socket (this w) = Some s1.
Proof.
  intros Hreach H1 H2. apply reachable_consistent in Hreach.
  apply live_mark in H1 as [e1 H1]. apply live_mark in H2 as [e2 H2].
  destruct Hreach as [Hlive _].
  destruct (Hlive s1 e1 H1) as [Hs1 _]. destruct (Hlive s2 e2 H2) as [Hs2 _].
  split; [congruence | assumption].
Qed.

Lemma one_open_socket_witness :
  1%nat = 1%nat /\ socket (this reconnected) = Some 1%nat.
Proof.
  apply (one_open_socket reconnected 1 1).
  - from_fresh (handshake [0x20; 0x02; 0x00; 0x00]%Z
                  ++ [Emit 0 EvClose; CallConnect]).
  - reflexivity.
  - reflexivity.
Defined.

Section CloseAndError.

Lemma written_to_insert (w : World) (s s' : nat) (sk sk' : Socket) :
  sockets w !! s = Some sk -> written sk' = written sk ->
  written_to s' (set_sockets (<[s := sk']> (sockets w)) w) = written_to s' w.
Proof.
  intros Hs Hw. unfold written_to. simpl.
  destruct (decide (s = s')) as [<-|Hne].
  - rewrite list_lookup_insert_eq by (eapply lookup_lt_Some, Hs).
    rewrite Hs. simpl. congruence.
  - rewrite list_lookup_insert_ne by assumption. reflexivity.
Qed.

Lemma in_flight_socket (p s : nat) (w : World) :
  in_flight p s w ->
  exists sk, sockets w !! s = Some sk /\ closed sk = false /\ executor sk = p.
Proof.
  intros (_ & _ & _ & _ & Hm). unfold marks in Hm.
  rewrite list_lookup_fmap in Hm.
  destruct (sockets w !! s) as [sk|]; [|discriminate].
  simpl in Hm. unfold mark in Hm. injection Hm as Hc He. eauto.
Qed.

End CloseAndError.

(** X10. The close event of the open socket, in any reachable world:
    afterwards the publisher is not ready, has no promise at hand and no
    open socket, and [publish] throws; the [socket] field still names the
    closed socket, and promises and written buffers are as before. *)
Theorem close_resets (w : World) (s : nat) :
  reachable w -> live s w = true ->
  let w' := emit s EvClose w in
  isReady (this w') = false /\
  connectPromise (this w') = None /\
  (forall s', live s' w' = false) /\
  (forall topic payload options,
     publish topic payload options w'
     = (Some (Error "MQTT publisher not connected"), w')) /\
  socket (this w') = Some s /\
  promises w' = promises w /\
  (forall s', written_to s' w' = written_to s' w).
Proof.
  intros Hreach Hlive w'. apply reachable_consistent in Hreach.
  unfold live in Hlive.
  destruct (sockets w !! s) as [sk|] eqn:Hs; [|discriminate].
  apply negb_true_iff in Hlive.
  assert (w' = on_close s sk w) as Hw'
    by (unfold w', emit; rewrite Hs; reflexivity).
  pose proof (consistent_on_close s sk w Hs Hlive Hreach) as Hcons.
  destruct (live_executor w s sk Hreach Hs Hlive) as [Hsock _].
  rewrite Hw'. split; [reflexivity|]. split; [reflexivity|].
  split; [|split; [|split; [|split]]].
  - intros s'. destruct (live s' (on_close s sk w)) eqn:Hl; [|reflexivity].
    apply live_mark in Hl as [e He].
    destruct Hcons as [Hcur _]. destruct (Hcur s' e He) as [_ Hcp].
    discriminate.
  - intros topic payload options. unfold publish. simpl.
    destruct (socket (this w)); reflexivity.
  - exact Hsock.
  - reflexivity.
  - intros s'. unfold on_close.
    apply (written_to_insert w s s' sk); [assumption|reflexivity].
Qed.

Lemma close_resets_witness :
  isReady (this (emit 0 EvClose connected)) = false /\
  connectPromise (this (emit 0 EvClose connected)) = None.
Proof.
  destruct (close_resets connected 0) as (H1 & H2 & _).
  - from_fresh (handshake [0x20; 0x02; 0x00; 0x00]%Z).
  - reflexivity.
  - split; assumption.
Defined.

(** X11. The first error event of the socket of an attempt in flight
    rejects the promise of the attempt with that error. Nothing else
    changes: the rejected promise stays at hand, so [connect] returns it
    and opens no socket, and the socket stays open. Later error events of
    the socket do nothing. *)
Theorem error_rejects_attempt (w : World) (p s : nat) (code : Z) :
  in_flight p s w -> armed s w ->
  let w' := emit s (EvError code) w in
  promises w' !! p = Some (Rejected (ErrnoException code)) /\
  this w' = this w /\
  connect w' = (p, w') /\
  live s w' = true /\
  (forall code', emit s (EvError code') w' = w').
Proof.
  intros Hfl (sk0 & Hs0 & Harmed) w'.
  destruct (in_flight_socket p s w Hfl) as (sk & Hs & Hopen & Hexec).
  assert (sk0 = sk) as -> by congruence.
  destruct Hfl as (Hcp & Hpend & _).
  assert (w' = reject p (ErrnoException code)
                 (set_sockets (<[s := disarm_error sk]> (sockets w)) w)) as Hw'.
  { unfold w', emit. rewrite Hs. unfold on_error. rewrite Harmed, Hexec.
    reflexivity. }
  assert (sockets w' !! s = Some (disarm_error sk)) as Hs'.
  { rewrite Hw'. unfold reject. rewrite settle_sockets. simpl.
    apply list_lookup_insert_eq. eapply lookup_lt_Some, Hs. }
  assert (this w' = this w) as Hthis.
  { rewrite Hw'. unfold reject. rewrite settle_this. reflexivity. }
  split; [|split; [exact Hthis|split; [|split]]].
  - rewrite Hw'. unfold reject. apply settle_pending. simpl. exact Hpend.
  - apply connect_again. rewrite Hthis. exact Hcp.
  - unfold live. rewrite Hs'. simpl. rewrite Hopen. reflexivity.
  - intros code'. unfold emit. rewrite Hs'. reflexivity.
Qed.

Lemma error_rejects_attempt_witness :
  promises (emit 0 (EvError 111) connecting) !! 0%nat
  = Some (Rejected (ErrnoException 111)).
Proof.
  apply (error_rejects_attempt connecting 0 0 111).
  - unfold in_flight. repeat split; reflexivity.
  - unfold armed. eexists. split; reflexivity.
Defined.

(** X12. Inbound data that the handler does not look at: a chunk of fewer
    than four bytes at any time, and any chunk once the publisher is
    ready, leave the world as it is. So an acknowledgement that arrives in
    pieces shorter than four bytes never completes the handshake, and
    nothing the broker sends after the handshake unreadies the
    publisher. *)
Theorem chunks_ignored (w : World) (s : nat) (chunks : list Buffer) :
  live s w = true ->
  isReady (this w) = true \/
  Forall (fun chunk => (length chunk < 4)%nat) chunks ->
  run (Emit s <$> (EvData <$> chunks)) w = Some w.
Proof.
  intros Hlive Hwhy.
  assert (forall chunk, chunk ∈ chunks -> emit s (EvData chunk) w = w) as Hig.
  { intros chunk Hin. unfold emit.
    destruct (sockets w !! s) as [sk|]; [|reflexivity].
    apply on_data_ignored. destruct Hwhy as [Hr|Hshort]; [left; exact Hr|].
    right. rewrite Forall_forall in Hshort. apply Hshort. exact Hin. }
  clear Hwhy. induction chunks as [|chunk chunks IH]; [reflexivity|].
  rewrite !fmap_cons. cbn [run enabled exec]. rewrite Hlive.
  rewrite Hig by (apply elem_of_cons; left; reflexivity).
  apply IH. intros c Hc. apply Hig. apply elem_of_cons. right. exact Hc.
Qed.

Lemma chunks_ignored_witness :
  run [Emit 0 (EvData [0x20; 0x02]%Z); Emit 0 (EvData [0x00; 0x00]%Z)]
    connecting
  = Some connecting.
Proof.
  apply (chunks_ignored connecting 0 [[0x20; 0x02]%Z; [0x00; 0x00]%Z]).
  - reflexivity.
  - right. repeat constructor; simpl; lia.
Defined.

(** X13. Of a chunk of four bytes or more the data handler reads bytes 0,
    1 and 3 only: two such chunks that agree on these three bytes have the
    same effect, whatever byte 2 and the bytes from the fifth on are. *)
Theorem ack_bytes_examined (w : World) (s : nat) (c1 c2 : Buffer) :
  (4 <= length c1)%nat -> (4 <= length c2)%nat ->
  c1 !! 0%nat = c2 !! 0%nat -> c1 !! 1%nat = c2 !! 1%nat ->
  c1 !! 3%nat = c2 !! 3%nat ->
  emit s (EvData c1) w = emit s (EvData c2) w.
Proof.
  intros H1 H2 Hb0 Hb1 Hb3. unfold emit.
  destruct (sockets w !! s) as [sk|]; [|reflexivity].
  unfold on_data, byte_is, byte_ge. rewrite Hb0, Hb1, Hb3.
  replace (4 <=? Z.of_nat (length c1))%Z with true
    by (symmetry; apply Z.leb_le; lia).
  replace (4 <=? Z.of_nat (length c2))%Z with true
    by (symmetry; apply Z.leb_le; lia).
  reflexivity.
Qed.

Lemma ack_bytes_examined_witness :
  emit 0 (EvData [0x20; 0x02; 0x01; 0x00; 0x99]%Z) connecting = connected.
Proof.
  apply (ack_bytes_examined connecting 0
           [0x20; 0x02; 0x01; 0x00; 0x99]%Z [0x20; 0x02; 0x00; 0x00]%Z);
    try reflexivity; simpl; lia.
Defined.

Section ReadySettled.

Lemma settle_not_pending (q p : nat) (st : PromiseState) (w : World) :
  st <> Pending -> promises w !! p <> Some Pending ->
  promises (settle q st w) !! p <> Some Pending.
Proof.
  intros Hst Hp. unfold settle.
  destruct (promises w !! q) as [[]|] eqn:Hq; try assumption.
  simpl. destruct (decide (q = p)) as [->|Hne].
  - contradiction.
  - rewrite list_lookup_insert_ne by assumption. assumption.
Qed.

Lemma settled_after (p : nat) (st : PromiseState) (w : World) :
  st <> Pending -> promises (settle p st w) !! p <> Some Pending.
Proof.
  intros Hst. unfold settle.
  destruct (promises w !! p) as [[]|] eqn:Hp; try (rewrite Hp; discriminate).
  simpl. rewrite list_lookup_insert_eq by (eapply lookup_lt_Some, Hp).
  congruence.
Qed.

Lemma ready_settled_same (w w' : World) :
  this w' = this w -> promises w' = promises w ->
  ready_settled w -> ready_settled w'.
Proof.
  intros Hthis Hps Hw. unfold ready_settled. rewrite Hthis, Hps. exact Hw.
Qed.

Lemma ready_settled_exec (a : Action) (w : World) :
  enabled a w = true -> consistent w ->
  ready_settled w -> ready_settled (exec a w).
Proof.
  intros Ha Hcons Hw. destruct a as [|topic payload options| |s ev]; simpl.
  - unfold connect. destruct (connectPromise (this w)) eqn:Hcp; [assumption|].
    intros Hr. simpl in Hr.
    destruct (ready_socket w Hcons Hr) as (s & sk & _ & _ & _ & H). congruence.
  - unfold publish. destruct (socket (this w)); [|assumption].
    destruct (isReady (this w)) eqn:Hr; [|assumption]. simpl.
    apply (ready_settled_same w);
      [apply socket_write_this | apply socket_write_promises | assumption].
  - unfold end_. destruct (socket (this w)); [|assumption].
    apply (ready_settled_same w);
      [apply socket_end_this | apply socket_end_promises | assumption].
  - simpl in Ha. unfold live in Ha. unfold emit.
    destruct (sockets w !! s) as [sk|] eqn:Hs; [|discriminate].
    apply negb_true_iff in Ha.
    destruct ev as [|code|chunk|].
    + unfold on_connect. destruct (once_connect sk); [|assumption].
      simpl. destruct (socket (this w)); [|assumption].
      apply (ready_settled_same w); [| |assumption].
      * rewrite socket_write_this. reflexivity.
      * rewrite socket_write_promises. reflexivity.
    + unfold on_error. destruct (once_error sk); [|assumption].
      unfold reject, ready_settled. rewrite settle_this. simpl.
      intros Hr p Hp. apply settle_not_pending; [discriminate|].
      apply Hw; assumption.
    + unfold on_data.
      destruct (negb (isReady (this w)) && (4 <=? Z.of_nat (length chunk)))%Z
        eqn:Htest; [|assumption].
      apply andb_prop in Htest as [Hnr _]. apply negb_true_iff in Hnr.
      destruct (byte_is chunk 0 32 && byte_ge chunk 1 2 && byte_is chunk 3 0).
      * unfold resolve, ready_settled. rewrite settle_this. simpl.
        intros _ p Hp.
        destruct (live_executor w s sk Hcons Hs Ha) as [_ Hexec].
        assert (p = executor sk) as -> by congruence.
        apply settled_after. discriminate.
      * unfold reject, ready_settled. rewrite settle_this. rewrite Hnr.
        discriminate.
    + unfold on_close, ready_settled. simpl. discriminate.
Qed.

Lemma ready_settled_run (acts : list Action) (w w' : World) :
  run acts w = Some w' -> consistent w ->
  ready_settled w -> ready_settled w'.
Proof.
  revert w. induction acts as [|a acts IH]; intros w Hrun Hcons Hw;
    simpl in Hrun.
  - injection Hrun as <-. assumption.
  - destruct (enabled a w) eqn:Ha; [|discriminate].
    apply (IH (exec a w)); [assumption| |].
    + apply consistent_exec; assumption.
    + apply ready_settled_exec; assumption.
Qed.

End ReadySettled.

(** X14. The two states in which [connect] does nothing exclude each
    other: in a reachable world the publisher is never ready while the
    promise at hand is still pending. The readiness flag is only set
    together with the settling of that promise. *)
Theorem ready_excludes_connecting (w : World) :
  reachable w -> ~ (Connecting w /\ Ready w).
Proof.
  intros (brokerUrl & clientId & suffix & acts & Hrun) [(p & Hcp & Hp) Hr].
  assert (ready_settled w) as Hw.
  { apply (ready_settled_run acts _ w Hrun).
    - apply consistent_constructor.
    - unfold ready_settled. simpl. discriminate. }
  apply (Hw Hr p Hcp). exact Hp.
Qed.

Lemma ready_excludes_connecting_witness :
  ~ (Connecting connected /\ Ready connected).
Proof.
  apply ready_excludes_connecting.
  from_fresh (handshake [0x20; 0x02; 0x00; 0x00]%Z).
Defined.

(** X15. A call of [connect] with no promise at hand, the first one or one
    after a close, starts one attempt: one new pending promise, one new
    socket to the URL's host and to its port, or to 1883 when the URL
    names none, with nothing written yet. The older promises and sockets
    are kept, the publisher is not ready, and the new socket is the only
    one open. *)
Theorem connect_opens_socket (w : World) :
  reachable w -> connectPromise (this w) = None ->
  let p := length (promises w) in
  let s := length (sockets w) in
  let w' := snd (connect w) in
  fst (connect w) = p /\
  promises w' = promises w ++ [Pending] /\
  (exists sk,
     sockets w' = sockets w ++ [sk] /\
     host sk = hostname (url (this w)) /\
     port sk = match url_port (url (this w)) with
               | Some n => n
               | None => 1883%Z
               end /\
     written sk = [] /\ closed sk = false) /\
  in_flight p s w' /\
  (forall s', live s' w' = true -> s' = s).
Proof.
  intros Hreach Hcp p s w'. apply reachable_consistent in Hreach.
  pose proof (in_flight_connect w Hreach Hcp) as Hfl.
  pose proof (consistent_connect w Hreach) as Hcons.
  fold w' in Hfl, Hcons. fold p s in Hfl.
  assert (socket (this w') = Some s) as Hsock by apply Hfl.
  unfold w', connect in *. rewrite Hcp in *. simpl in *.
  split; [reflexivity|]. split; [reflexivity|].
  split; [eexists; split; [reflexivity|]; simpl; auto|].
  split; [exact Hfl|].
  intros s' Hl. apply live_mark in Hl as [e He].
  destruct Hcons as [Hcur _]. destruct (Hcur s' e He) as [Hs' _].
  simpl in Hs'. congruence.
Qed.

Lemma connect_opens_socket_witness :
  in_flight 1 1 reconnected.
Proof.
  apply (connect_opens_socket (exec (Emit 0 EvClose) connected)).
  - from_fresh (handshake [0x20; 0x02; 0x00; 0x00]%Z ++ [Emit 0 EvClose]).
  - reflexivity.
Defined.

(** ** The generator's arithmetic *)

(** X16. [clamp] by cases. With [min <= max]: a value at or below [min]
    gives [min], a value in the range is returned as it is, a value at or
    above [max] gives [max], and clamping twice is clamping once. With the
    bounds the wrong way round, [max < min], the result is [max] whatever
    the value. *)
Theorem clamp_cases (value min max : Q) :
  ((min <= max)%Q ->
   ((value <= min)%Q -> (Sim.clamp value min max == min)%Q) /\
   ((min <= value)%Q -> (value <= max)%Q ->
    (Sim.clamp value min max == value)%Q) /\
   ((max <= value)%Q -> (Sim.clamp value min max == max)%Q) /\
   (Sim.clamp (Sim.clamp value min max) min max
    == Sim.clamp value min max)%Q) /\
  ((max < min)%Q -> (Sim.clamp value min max == max)%Q).
Proof.
  unfold Sim.clamp.
  destruct (Q.max_spec value min) as [[H1 H2]|[H1 H2]];
  destruct (Q.min_spec (Qmax value min) max) as [[H3 H4]|[H3 H4]];
  destruct (Q.max_spec (Qmin (Qmax value min) max) min) as [[H5 H6]|[H5 H6]];
  destruct (Q.min_spec (Qmax (Qmin (Qmax value min) max) min) max)
    as [[H7 H8]|[H7 H8]];
  repeat split; intros; lra.
Qed.

Lemma clamp_cases_witness :
  (Sim.clamp 150.5 70 110 == 110)%Q /\ (Sim.clamp 3 10 0 == 0)%Q.
Proof.
  split.
  - apply (proj1 (clamp_cases 150.5 70 110)); lra.
  - apply (proj2 (clamp_cases 3 10 0)); lra.
Defined.

(** X17. The period of a metric's timer, for a frequency above zero: at
    least 10 milliseconds; exactly 1000 / frequency up to 100 Hz; exactly
    10 from 100 Hz on. *)
Theorem interval_floor (metric : Sim.MetricDefinition) :
  (0 < Sim.frequency metric)%Q ->
  (10 <= Sim.intervalMs metric)%Q /\
  ((Sim.frequency metric <= 100)%Q ->
   (Sim.intervalMs metric == 1000 / Sim.frequency metric)%Q) /\
  ((100 <= Sim.frequency metric)%Q -> (Sim.intervalMs metric == 10)%Q).
Proof.
  intros Hf. unfold Sim.intervalMs.
  set (f := Sim.frequency metric) in *.
  set (q := (1000 / f)%Q).
  assert (q * f == 1000)%Q as Hq by (unfold q; field; lra).
  destruct (Q.max_spec q 10) as [[H1 H2]|[H1 H2]]; repeat split; intros;
    try lra; try nra.
Qed.

Lemma interval_floor_witness :
  (Sim.intervalMs Sim.coolantTemp == 200)%Q.
Proof.
  destruct (interval_floor Sim.coolantTemp) as (_ & H & _).
  - reflexivity.
  - rewrite H; [reflexivity | discriminate].
Defined.

(** ** The states at startup and a tick as a whole *)

Section Ticks.
Local Open Scope Q_scope.

Lemma nextValue_some (metric : Sim.MetricDefinition)
    (states : gmap jsstring Sim.MetricState) (state : Sim.MetricState)
    (random : Q) :
  states !! Sim.id metric = Some state ->
  exists next, Sim.nextValue metric states random = Some next.
Proof.
  intros Hs. unfold Sim.nextValue, Sim.defaultGenerator. rewrite Hs.
  destruct (Sim.generator metric); eauto.
Qed.

(** The raw next value of a metric depends on the state of that metric
    only. *)
Lemma nextValue_insert_other (metric : Sim.MetricDefinition)
    (states : gmap jsstring Sim.MetricState) (k : jsstring)
    (x : Sim.MetricState) (random : Q) :
  k <> Sim.id metric ->
  Sim.nextValue metric (<[k := x]> states) random
  = Sim.nextValue metric states random.
Proof.
  intros Hne. unfold Sim.nextValue, Sim.defaultGenerator.
  rewrite lookup_insert_ne by assumption. reflexivity.
Qed.

End Ticks.

(** X18. The states made at startup, for a table with distinct
    identifiers: every metric has a state, its value is the metric's
    minimum and its target is one of the draws placed in the range;
    an identifier that is not in the table has no state. *)
Theorem startup_states (ms : list Sim.MetricDefinition) (randoms : nat -> Q) :
  NoDup (Sim.id <$> ms) ->
  (forall metric, metric ∈ ms ->
     exists i : nat,
       Sim.metricStates ms randoms !! Sim.id metric
       = Some {| Sim.value := Sim.min metric;
                 Sim.target :=
                   Sim.randomInRange (Sim.min metric) (Sim.max metric)
                     (randoms i) |}) /\
  (forall k : jsstring, k ∉ (Sim.id <$> ms) ->
     Sim.metricStates ms randoms !! k = None).
Proof.
  intros Hnd. split.
  - intros metric Hin. apply metricStates_initial; assumption.
  - intros k Hk. unfold Sim.metricStates, Sim.fromEntries.
    rewrite fold_insert_other by (rewrite entries_keys; exact Hk).
    apply lookup_empty.
Qed.

Lemma startup_states_witness :
  Sim.metricStates Sim.metrics (fun _ => 0.5%Q) !! lit "altitude" = None.
Proof.
  destruct (startup_states Sim.metrics (fun _ => 0.5%Q)) as [_ Hnone].
  - apply (bool_decide_unpack _). vm_compute. reflexivity.
  - apply Hnone. apply (bool_decide_unpack _). vm_compute. reflexivity.
Defined.







Section Order.

Lemma after_tick_commute (m1 m2 : Sim.MetricDefinition) (r1 q1 r2 q2 : Q)
    (states : gmap jsstring Sim.MetricState) :
  Sim.id m1 <> Sim.id m2 ->
  Sim.after_tick m2 r2 q2 (Sim.after_tick m1 r1 q1 states)
  = Sim.after_tick m1 r1 q1 (Sim.after_tick m2 r2 q2 states).
Proof.
  intros Hne. unfold Sim.after_tick.
  destruct (states !! Sim.id m1) as [st1|] eqn:H1;
  destruct (states !! Sim.id m2) as [st2|] eqn:H2;
    try (destruct (nextValue_some m1 states st1 r1 H1) as [n1 Hn1]);
    try (destruct (nextValue_some m2 states st2 r2 H2) as [n2 Hn2]);
    rewrite ?Hn1, ?Hn2, ?H1, ?H2;
    rewrite ?lookup_insert_ne by congruence;
    rewrite ?nextValue_insert_other by congruence;
    rewrite ?Hn1, ?Hn2, ?H1, ?H2;
    try reflexivity.
  apply insert_insert_ne. congruence.
Qed.

End Order.

(** X22. Ticks of metrics with different identifiers commute on the
    states: whichever of the two timers fires first, the states after both
    ticks are the same (the frames reach the socket in the order of the
    ticks). *)
Theorem ticks_commute (prefix : jsstring) (stringify : Payload.t -> jsstring)
    (t1 t2 : Sim.Tick) (states : gmap jsstring Sim.MetricState) (w : World) :
  Sim.id (Sim.tick_metric t1) <> Sim.id (Sim.tick_metric t2) ->
  fst (Sim.fire_all prefix stringify [t1; t2] (states, w))
  = fst (Sim.fire_all prefix stringify [t2; t1] (states, w)).
Proof.
  intros Hne.
  assert (forall t sw,
            fst (Sim.fire prefix stringify t sw)
            = Sim.after_tick (Sim.tick_metric t) (Sim.tick_random t)
                (Sim.tick_retarget t) (fst sw)) as Hfire.
  { intros t sw. rewrite fire_states, publishMetric_states. reflexivity. }
  unfold Sim.fire_all. cbn [fold_left]. rewrite !Hfire. cbn [fst].
  apply after_tick_commute. exact Hne.
Qed.

Lemma ticks_commute_witness :
  fst (Sim.fire_all (lit "hmi/metrics") (fun _ => [])
         [ {| Sim.tick_metric := Sim.coolantTemp; Sim.tick_random := 0.25;
              Sim.tick_retarget := 0.75; Sim.tick_now := 0 |};
           {| Sim.tick_metric := Sim.oilTemp; Sim.tick_random := 0.5;
              Sim.tick_retarget := 0.125; Sim.tick_now := 200 |} ]
         (Sim.metricStates Sim.metrics (fun _ => 0.5%Q), connected))
  = fst (Sim.fire_all (lit "hmi/metrics") (fun _ => [])
           [ {| Sim.tick_metric := Sim.oilTemp; Sim.tick_random := 0.5;
                Sim.tick_retarget := 0.125; Sim.tick_now := 200 |};
             {| Sim.tick_metric := Sim.coolantTemp; Sim.tick_random := 0.25;
                Sim.tick_retarget := 0.75; Sim.tick_now := 0 |} ]
           (Sim.metricStates Sim.metrics (fun _ => 0.5%Q), connected)).
Proof.
  apply ticks_commute. simpl. intros H. discriminate H.
Defined.

(** ** What the generators do to a value *)

Section Generators.
Local Open Scope Q_scope.

Variable prefix : jsstring.
Variable stringify : Payload.t -> jsstring.

(** The value that a tick stores: the raw next value, clamped. *)
Lemma tick_value (metric : Sim.MetricDefinition) (random retarget : Q)
    (now : Z) (states : gmap jsstring Sim.MetricState)
    (state : Sim.MetricState) (next : Q) (w : World) :
  states !! Sim.id metric = Some state ->
  Sim.nextValue metric states random = Some next ->
  exists state',
    snd (fst (Sim.publishMetric prefix stringify metric random retarget now
                states w)) !! Sim.id metric = Some state' /\
    Sim.value state' = Sim.clamp next (Sim.min metric) (Sim.max metric).
Proof.
  intros Hs Hnext. exists (Sim.advance metric next retarget state).
  rewrite publishMetric_states, Hs, Hnext, lookup_insert_eq.
  split; [reflexivity|].
  unfold Sim.advance. destruct (Qlt_le_dec _ _); reflexivity.
Qed.

Lemma nextValue_override (metric : Sim.MetricDefinition) (g : Q -> Q -> Q)
    (states : gmap jsstring Sim.MetricState) (state : Sim.MetricState)
    (random : Q) :
  Sim.generator metric = Some g -> states !! Sim.id metric = Some state ->
  Sim.nextValue metric states random = Some (g random (Sim.value state)).
Proof.
  intros Hg Hs. unfold Sim.nextValue. rewrite Hs, Hg. reflexivity.
Qed.

(** Clamping moves a value no further from a point of the range. *)
Lemma clamp_toward (x lo hi t : Q) :
  lo <= t -> t <= hi ->
  Qabs (Sim.clamp x lo hi - t) <= Qabs (x - t).
Proof.
  intros Hlo Hhi. unfold Sim.clamp.
  destruct (Q.max_spec x lo) as [[H1 H2]|[H1 H2]];
  destruct (Q.min_spec (Qmax x lo) hi) as [[H3 H4]|[H3 H4]];
  apply Qabs_case; intros Ha; apply Qabs_case; intros Hb; lra.
Qed.

End Generators.

(** X23. The default rule closes in on the target. For a metric without
    override generator, with smoothing between 0 and 1 and a target in the
    range, the distance of the stored value to the target after a tick is
    at most (1 - smoothing) times the distance before, plus the largest
    noise, smoothing * (max - min) * 0.005. *)
Theorem default_rule_contracts (prefix : jsstring)
    (stringify : Payload.t -> jsstring) (metric : Sim.MetricDefinition)
    (states : gmap jsstring Sim.MetricState) (state : Sim.MetricState)
    (random retarget : Q) (now : Z) (w : World) :
  Sim.generator metric = None ->
  states !! Sim.id metric = Some state ->
  (0 <= Sim.smoothing metric)%Q -> (Sim.smoothing metric <= 1)%Q ->
  Sim.in_range metric (Sim.target state) ->
  Sim.is_random random ->
  exists state',
    snd (fst (Sim.publishMetric prefix stringify metric random retarget now
                states w)) !! Sim.id metric = Some state' /\
    (Qabs (Sim.value state' - Sim.target state)
     <= (1 - Sim.smoothing metric) * Qabs (Sim.value state - Sim.target state)
        + Sim.smoothing metric * (Sim.max metric - Sim.min metric) * 0.005)%Q.
Proof.
  intros Hgen Hs Hs0 Hs1 [Hlo Hhi] [Hr0 Hr1].
  set (sm := Sim.smoothing metric) in *.
  set (lo := Sim.min metric) in *. set (hi := Sim.max metric) in *.
  set (v := Sim.value state). set (t := Sim.target state) in *.
  set (next := (v + (t - v) * sm + (random - 0.5) * sm * (hi - lo) * 0.01)%Q).
  assert (Sim.nextValue metric states random = Some next) as Hnext.
  { unfold Sim.nextValue, Sim.defaultGenerator. rewrite Hs, Hgen.
    reflexivity. }
  destruct (tick_value prefix stringify metric random retarget now states
              state next w Hs Hnext) as (state' & Hlook & Hval).
  exists state'. split; [exact Hlook|]. rewrite Hval. fold lo hi.
  apply (Qle_trans _ (Qabs (next - t))); [apply clamp_toward; assumption|].
  assert (0 <= sm * (hi - lo))%Q as Hk by (apply Qmult_le_0_compat; lra).
  set (k := (sm * (hi - lo))%Q) in *.
  set (a := ((1 - sm) * Qabs (v - t))%Q).
  assert (a == Qabs ((1 - sm) * (v - t)))%Q as Ha.
  { unfold a. rewrite Qabs_Qmult, (Qabs_pos (1 - sm)) by lra. reflexivity. }
  set (n := ((random - 0.5) * k * 0.01)%Q).
  assert (Qabs n <= k * 0.005)%Q as Hn.
  { unfold n. apply Qabs_case; intros _; nra. }
  assert (next - t == (1 - sm) * (v - t) + n)%Q as ->
    by (unfold next, n, k; ring).
  eapply Qle_trans; [apply Qabs_triangle|].
  rewrite <- Ha. unfold k in Hn |- *. lra.
Qed.

Lemma default_rule_contracts_witness :
  exists state',
    snd (fst (Sim.publishMetric (lit "hmi/metrics") (fun _ => [])
                Sim.coolantTemp 0.75 0.5 0
                {[ Sim.id Sim.coolantTemp :=
                     {| Sim.value := 90; Sim.target := 100 |} ]} connected))
      !! Sim.id Sim.coolantTemp = Some state' /\
    (Qabs (Sim.value state' - 100) <= (1 - 0.05) * Qabs (90 - 100)
                                      + 0.05 * (110 - 70) * 0.005)%Q.
Proof.
  apply (default_rule_contracts (lit "hmi/metrics") (fun _ => [])
           Sim.coolantTemp _ {| Sim.value := 90; Sim.target := 100 |}).
  - reflexivity.
  - apply lookup_singleton_eq.
  - simpl. lra.
  - simpl. lra.
  - unfold Sim.in_range. simpl. lra.
  - unfold Sim.is_random. lra.
Defined.

Lemma fuelLevel_in_table : Sim.metrics !! 4%nat = Some Sim.fuelLevel.
Proof. reflexivity. Qed.

Lemma gear_in_table : Sim.metrics !! 15%nat = Some Sim.gear.
Proof. reflexivity. Qed.

Lemma odometer_in_table : Sim.metrics !! 16%nat = Some Sim.odometer.
Proof. reflexivity. Qed.

Lemma trip_in_table : Sim.metrics !! 17%nat = Some Sim.trip.
Proof. reflexivity. Qed.



(** X25. The gear is a whole number from 1 to 8 after every tick, whatever
    it was before: the floor of eight times the draw, plus one, which the
    clamp to [1, 8] leaves alone. *)
Theorem gear_is_whole (prefix : jsstring)
    (stringify : Payload.t -> jsstring)
    (states : gmap jsstring Sim.MetricState) (state : Sim.MetricState)
    (random retarget : Q) (now : Z) (w : World) :
  states !! Sim.id Sim.gear = Some state ->
  Sim.is_random random ->
  exists (state' : Sim.MetricState) (n : Z),
    snd (fst (Sim.publishMetric prefix stringify Sim.gear random retarget
                now states w)) !! Sim.id Sim.gear = Some state' /\
    (Sim.value state' == inject_Z n)%Q /\ (1 <= n <= 8)%Z /\
    n = (Qfloor (random * 8) + 1)%Z.
Proof.
  intros Hs [Hr0 Hr1].
  destruct (tick_value prefix stringify Sim.gear random retarget now
              states state _ w Hs
              (nextValue_override Sim.gear _ states state random eq_refl Hs))
    as (state' & Hlook & Hval).
  exists state', (Qfloor (random * 8) + 1)%Z. split; [exact Hlook|].
  assert (0 <= Qfloor (random * 8) <= 7)%Z as Hfloor.
  { split.
    - change 0%Z with (Qfloor 0). apply Qfloor_resp_le. lra.
    - assert (Qfloor (random * 8) < 8)%Z; [|lia].
      rewrite Zlt_Qlt. apply (Qle_lt_trans _ (random * 8)%Q).
      + apply Qfloor_le.
      + change (inject_Z 8) with 8%Q. lra. }
  split; [|split; [lia | reflexivity]].
  rewrite Hval. simpl Sim.min. simpl Sim.max.
  rewrite inject_Z_plus.
  assert (0 <= inject_Z (Qfloor (random * 8)) <= 7)%Q as [H0 H7].
  { split.
    - change 0%Q with (inject_Z 0). rewrite <- Zle_Qle. lia.
    - change 7%Q with (inject_Z 7). rewrite <- Zle_Qle. lia. }
  change (inject_Z 1) with 1%Q.
  set (g := inject_Z (Qfloor (random * 8))) in *.
  unfold Sim.clamp.
  destruct (Q.max_spec (g + 1) 1) as [[H1 H2]|[H1 H2]];
  destruct (Q.min_spec (Qmax (g + 1) 1) 8) as [[H3 H4]|[H3 H4]]; lra.
Qed.

Lemma gear_is_whole_witness :
  exists (state' : Sim.MetricState) (n : Z),
    snd (fst (Sim.publishMetric (lit "hmi/metrics") (fun _ => [])
                Sim.gear 0.99 0.5 0
                {[ Sim.id Sim.gear := {| Sim.value := 1; Sim.target := 3 |} ]}
                connected)) !! Sim.id Sim.gear = Some state' /\
    (Sim.value state' == inject_Z n)%Q /\ (1 <= n <= 8)%Z.
Proof.
  destruct (gear_is_whole (lit "hmi/metrics") (fun _ => [])
              {[ Sim.id Sim.gear := {| Sim.value := 1; Sim.target := 3 |} ]}
              {| Sim.value := 1; Sim.target := 3 |} 0.99 0.5 0 connected)
    as (state' & n & H1 & H2 & H3 & _).
  - apply lookup_singleton_eq.
  - unfold Sim.is_random. lra.
  - exists state', n. auto.
Defined.



(** X27. A socket error never touches the publisher's own fields: after an
    error event, on any socket and in any world, the readiness flag, the
    promise at hand and the current socket are as before, nothing has been
    written, and [publish] throws exactly when it would have thrown
    before. In particular a ready publisher stays ready after an error,
    until the socket's close event. *)
Theorem error_keeps_fields (w : World) (s : nat) (code : Z) :
  let w' := emit s (EvError code) w in
  this w' = this w /\
  (forall s', written_to s' w' = written_to s' w) /\
  (forall s', live s' w' = live s' w) /\
  (forall topic payload options,
     fst (publish topic payload options w')
     = fst (publish topic payload options w)).
Proof.
  intros w'.
  assert (this w' = this w /\
          (forall s', written_to s' w' = written_to s' w) /\
          (forall s', live s' w' = live s' w)) as (Hthis & Hwr & Hlive).
  { unfold w', emit. destruct (sockets w !! s) as [sk|] eqn:Hs; [|auto].
    unfold on_error. destruct (once_error sk); [|auto].
    unfold reject. rewrite settle_this. split; [reflexivity|]. split.
    - intros s'. unfold written_to. rewrite settle_sockets.
      apply (written_to_insert w s s' sk); [assumption|reflexivity].
    - intros s'. unfold live. rewrite settle_sockets. simpl.
      destruct (decide (s = s')) as [<-|Hne].
      + rewrite list_lookup_insert_eq by (eapply lookup_lt_Some, Hs).
        rewrite Hs. reflexivity.
      + rewrite list_lookup_insert_ne by assumption. reflexivity. }
  split; [exact Hthis|]. split; [exact Hwr|]. split; [exact Hlive|].
  intros topic payload options. unfold publish. rewrite Hthis.
  destruct (socket (this w)); [|reflexivity].
  destruct (isReady (this w)); reflexivity.
Qed.

(** X28. The string field of a string of ASCII characters, at most 65,535
    of them: the number of characters in two bytes, high byte first, then
    the characters, one byte each. *)
Theorem ascii_string_field (value : jsstring) :
  Forall (fun u => (0 <= u < 128)%Z) value ->
  (Z.of_nat (length value) <= 65535)%Z ->
  let n := Z.of_nat (length value) in
  encodeUtf8String value = ((n / 256) :: (n mod 256) :: value)%Z /\
  length (encodeUtf8String value) = (2 + length value)%nat.
Proof.
  intros Hascii Hlen n.
  pose proof (utf8_ascii value Hascii) as Hutf8.
  assert (encodeUtf8String value = ((n / 256) :: (n mod 256) :: value)%Z)
    as Hfield.
  { rewrite encodeUtf8String_layout, Hutf8. fold n.
    rewrite (Z.mod_small (n / 256)); [reflexivity|].
    split; [apply Z.div_pos; unfold n; lia|].
    apply Z.div_lt_upper_bound; unfold n; lia. }
  split; [exact Hfield|]. rewrite Hfield. reflexivity.
Qed.

Lemma ascii_string_field_witness :
  encodeUtf8String (lit "hmi/metrics/coolantTemp")
  = ([0; 23] ++ lit "hmi/metrics/coolantTemp")%Z.
Proof.
  apply (ascii_string_field (lit "hmi/metrics/coolantTemp")).
  - vm_compute. repeat constructor; discriminate.
  - vm_compute. discriminate.
Defined.
